(** * Lifecycle orchestration and shutdown broadcast of the fx application framework

    A shallow embedding of the Go packages [lifecycle] (hook registry,
    [Start] / [Stop]) and [fx] ([App], [New], [start], [Stop], [run],
    [broadcastSignal], [Shutdown]).

    Conventions.
    - A Go [error] interface value is an [option error]; [nil] is [None].
    - User code (hook actions, error handlers, invoked functions) acts on an
      abstract [World]; it is modelled by total functions, so a hook that
      panics or never returns is outside the model.
    - Every call of a hook action or of an error handler is recorded in the
      [calls] component of the state.  The record is instrumentation: no
      modelled function ever reads it.
    - Log output ([logger.Printf]) is not modelled, except for [Fatalf],
      which ends the process.
    - A slice index out of range is a Go panic; it is the [Panicked] outcome. *)

From Stdlib Require Import List String ZArith Lia Bool Arith PeanoNat.
From Stdlib Require Import DecimalString DecimalNat Sorted.
Import ListNotations.

Local Open Scope string_scope.
Local Open Scope list_scope.

(** ** Errors *)

(** The dynamic types of error values that occur in the program:
    [errors.New] / [fmt.Errorf] values (also standing for any user error),
    multierr's [*multiError], and fx's [errorWithGraph]. *)
#[warnings="-register-all"]
Inductive error : Type :=
| errorString (msg : string)
| multiError (errors : list error)
| errorWithGraph (graph : string) (err : error).

(** Result of a call that may end in a Go panic. *)
Inductive Outcome (A : Type) : Type :=
| Returned (a : A)
| Panicked (msg : string).
Arguments Returned {A} a.
Arguments Panicked {A} msg.

(** Modelled from the spec: go.uber.org/multierr is an external dependency
    whose source is not part of the repository.  The spec calls its results
    "the combined error set, or success if empty" and "a combined failure
    exposing both" errors; the definitions follow the library's [Errors],
    [fromSlice], [Combine] and [Append]. *)
Module multierr.

Definition isMultiError (e : error) : bool :=
  match e with multiError _ => true | _ => false end.

(** [Errors(err)]: the list of underlying errors. *)
Definition Errors (err : option error) : list error :=
  match err with
  | None => []
  | Some (multiError es) => es
  | Some e => [e]
  end.

(** Number of non-nil entries ([inspect(errors).Count]). *)
Definition count (errs : list (option error)) : nat :=
  List.length (filter (fun o => match o with Some _ => true | None => false end) errs).

Definition containsMultiError (errs : list (option error)) : bool :=
  existsb (fun o => match o with Some e => isMultiError e | None => false end) errs.

Fixpoint firstError (errs : list (option error)) : option error :=
  match errs with
  | [] => None
  | Some e :: _ => Some e
  | None :: rest => firstError rest
  end.

(** The non-nil entries, with nested multi-errors spliced in. *)
Definition flatten (errs : list (option error)) : list error :=
  flat_map Errors errs.

Definition nonNil (errs : list (option error)) : list error :=
  flat_map (fun o => match o with Some e => [e] | None => [] end) errs.

Definition fromSlice (errs : list (option error)) : option error :=
  match count errs with
  | 0 => None
  | 1 => firstError errs
  | c =>
      if (c =? List.length errs)%nat && negb (containsMultiError errs)
      then Some (multiError (nonNil errs))
      else Some (multiError (flatten errs))
  end.

Definition Combine (errs : list (option error)) : option error :=
  fromSlice errs.

Definition Append (left right : option error) : option error :=
  match left, right with
  | None, _ => right
  | _, None => left
  | Some l, Some r =>
      if negb (isMultiError r) then
        match l with
        | multiError les => Some (multiError (les ++ [r]))
        | _ => Some (multiError [l; r])
        end
      else fromSlice [left; right]
  end.

End multierr.

(** ** Contexts *)

(** [time.Duration]: a signed count of nanoseconds. *)
Definition Duration : Type := Z.

Definition Second : Duration := 1000000000%Z.

(** The contexts the program builds: [context.Background()] and
    [context.WithTimeout(parent, d)]. *)
Inductive Context : Type :=
| Background
| WithTimeout (parent : Context) (timeout : Duration).

(** ** Instrumentation *)

Inductive Call : Type :=
| CallStart (i : nat) (ctx : Context)
| CallStop (i : nat) (ctx : Context)
| CallHandleError (i : nat) (err : error).

Record State (World : Type) : Type := mkState {
  world : World;
  calls : list Call
}.
Arguments mkState {World} world calls.
Arguments world {World} s.
Arguments calls {World} s.

(** ** Package lifecycle *)

Module lifecycle.

Section WithWorld.
Context {World : Type}.

(** [func(context.Context) error] *)
Definition Action : Type := Context -> World -> World * option error.

Record Hook : Type := mkHook {
  OnStart : option Action;
  OnStop : option Action;
  caller : string
}.

Record Lifecycle : Type := mkLifecycle {
  hooks : list Hook;
  numStarted : nat
}.

Definition New : Lifecycle := {| hooks := []; numStarted := 0 |}.

(** [Append]; [callerName] is the result of [fxreflect.Caller()]. *)
Definition Append (l : Lifecycle) (hook : Hook) (callerName : string) : Lifecycle :=
  {| hooks := hooks l ++ [ {| OnStart := OnStart hook;
                              OnStop := OnStop hook;
                              caller := callerName |} ];
     numStarted := numStarted l |}.

Definition record (c : Call) (w : World) (st : State World) : State World :=
  {| world := w; calls := calls st ++ [c] |}.

(** The body of [Start]'s range loop; [i] is the position of the head of
    [hs] in the registry, [n] the current [numStarted]. *)
Fixpoint startLoop (hs : list Hook) (i : nat) (ctx : Context) (n : nat)
    (st : State World) : option error * nat * State World :=
  match hs with
  | [] => (None, n, st)
  | hook :: rest =>
      match OnStart hook with
      | Some f =>
          let '(w, err) := f ctx (world st) in
          let st' := record (CallStart i ctx) w st in
          match err with
          | Some e => (Some e, n, st')
          | None => startLoop rest (S i) ctx (S n) st'
          end
      | None => startLoop rest (S i) ctx (S n) st
      end
  end.

Definition Start (l : Lifecycle) (ctx : Context) (st : State World)
    : option error * Lifecycle * State World :=
  let '(err, n, st') := startLoop (hooks l) 0 ctx (numStarted l) st in
  (err, {| hooks := hooks l; numStarted := n |}, st').

(** The loop of [Stop], by recursion on [numStarted]; [errs] is the
    slice of collected failures. *)
Fixpoint stopLoop (hs : list Hook) (n : nat) (ctx : Context)
    (errs : list (option error)) (st : State World)
    : Outcome (list (option error)) * nat * State World :=
  match n with
  | 0 => (Returned errs, 0, st)
  | S m =>
      match nth_error hs m with
      | None => (Panicked "index out of range", n, st)
      | Some hook =>
          match OnStop hook with
          | None => stopLoop hs m ctx errs st
          | Some f =>
              let '(w, err) := f ctx (world st) in
              let st' := record (CallStop m ctx) w st in
              match err with
              | Some e => stopLoop hs m ctx (errs ++ [Some e]) st'
              | None => stopLoop hs m ctx errs st'
              end
          end
      end
  end.

Definition Stop (l : Lifecycle) (ctx : Context) (st : State World)
    : Outcome (option error) * Lifecycle * State World :=
  let '(out, n, st') := stopLoop (hooks l) (numStarted l) ctx [] st in
  (match out with
   | Returned errs => Returned (multierr.Combine errs)
   | Panicked m => Panicked m
   end,
   {| hooks := hooks l; numStarted := n |}, st').

(** *** Where a phase stands when its caller stops waiting

    [App.Start] and [App.Stop] run the loops above in a goroutine and may
    return at the deadline while the goroutine is still in its loop.  The
    two functions below give the state the goroutine has reached after at
    most [turns] turns of its loop; a hook action counts as one step. *)

(** [Start]'s loop after at most [turns] turns: the result if the loop has
    returned, the turns left over, [numStarted] and the state. *)
Fixpoint startLoopWithin (turns : nat) (hs : list Hook) (i : nat) (ctx : Context)
    (n : nat) (st : State World) {struct hs}
    : option (option error) * nat * nat * State World :=
  match hs with
  | [] => (Some None, turns, n, st)
  | hook :: rest =>
      match turns with
      | 0 => (None, 0, n, st)
      | S t =>
          match OnStart hook with
          | Some f =>
              let '(w, err) := f ctx (world st) in
              let st' := record (CallStart i ctx) w st in
              match err with
              | Some e => (Some (Some e), t, n, st')
              | None => startLoopWithin t rest (S i) ctx (S n) st'
              end
          | None => startLoopWithin t rest (S i) ctx (S n) st
          end
      end
  end.

(** [Stop]'s loop after at most [turns] turns: whether it has panicked,
    [numStarted] and the state. *)
Fixpoint stopLoopWithin (turns : nat) (hs : list Hook) (n : nat) (ctx : Context)
    (st : State World) {struct n} : bool * nat * State World :=
  match n with
  | 0 => (false, 0, st)
  | S m =>
      match turns with
      | 0 => (false, n, st)
      | S t =>
          match nth_error hs m with
          | None => (true, n, st)
          | Some hook =>
              match OnStop hook with
              | None => stopLoopWithin t hs m ctx st
              | Some f =>
                  let '(w, _) := f ctx (world st) in
                  stopLoopWithin t hs m ctx (record (CallStop m ctx) w st)
              end
          end
      end
  end.

(** *** Vocabulary of the statements *)

(** The stop actions of [hs] applied one after the other, the last
    registered first: the world they leave and the failures they return, in
    the order of the calls. *)
Fixpoint stopsInReverse (ctx : Context) (hs : list Hook) (w : World)
    : World * list (option error) :=
  match hs with
  | [] => (w, [])
  | h :: rest =>
      let '(w1, failures) := stopsInReverse ctx rest w in
      match OnStop h with
      | None => (w1, failures)
      | Some f =>
          let '(w2, err) := f ctx w1 in
          (w2, match err with
               | Some e => failures ++ [Some e]
               | None => failures
               end)
      end
  end.

(** The world after the start actions of [hs], applied in registration
    order. *)
Definition startsInOrder (ctx : Context) (hs : list Hook) (w : World) : World :=
  fold_left (fun w' h => match OnStart h with
                         | Some f => fst (f ctx w')
                         | None => w'
                         end) hs w.

Definition hasStart (h : Hook) : bool :=
  match OnStart h with Some _ => true | None => false end.

Definition hasStop (h : Hook) : bool :=
  match OnStop h with Some _ => true | None => false end.

(** Positions (counted from [from]) of the hooks satisfying [p], in
    increasing order. *)
Fixpoint indicesWhere (p : Hook -> bool) (from : nat) (hs : list Hook) : list nat :=
  match hs with
  | [] => []
  | h :: rest => (if p h then [from] else []) ++ indicesWhere p (S from) rest
  end.

Definition startCalls (ctx : Context) (hs : list Hook) : list Call :=
  map (fun i => CallStart i ctx) (indicesWhere hasStart 0 hs).

Definition stopCalls (ctx : Context) (hs : list Hook) : list Call :=
  map (fun i => CallStop i ctx) (rev (indicesWhere hasStop 0 hs)).

End WithWorld.

Arguments Hook World : clear implicits.
Arguments Lifecycle World : clear implicits.
Arguments Action World : clear implicits.

End lifecycle.

(** ** Package fx *)

Module fx.

(** [os.Signal]: the two signals the program names. *)
Inductive Signal : Type := SIGINT | SIGTERM.

(** [syscall.Signal.String()] as printed by the [%v] verb. *)
Definition Signal_String (s : Signal) : string :=
  match s with
  | SIGINT => "interrupt"
  | SIGTERM => "terminated"
  end.

(** [%v] of an [int]. *)
Definition itoa (n : nat) : string := NilEmpty.string_of_uint (Nat.to_uint n).

(** A [chan os.Signal] of capacity 1: its buffer. *)
Definition Chan : Type := option Signal.

(** The cases of an [interface{}] value that [provide] and
    [executeInvokes] tell apart by type assertion and reflection: a value
    that implements [Option], an [Annotated], a function (with the flag
    whether [Annotated] is among its result types), anything else.  The
    [nil] interface, on which [reflect.TypeOf(...).Kind()] panics, is left
    out. *)
Inductive Value : Type :=
| VOption (repr : string)
| VAnnotated (Name Group : string) (Target : Value)
| VFunc (name : string) (returnsAnnotated : bool)
| VOther (repr : string).

Inductive ProvideOption : Type :=
| digName (name : string)
| digGroup (group : string).

Definition DefaultTimeout : Duration := (15 * Second)%Z.

(** Which side of the [select] in [withTimeout] settles first; for
    [CtxDoneFirst] the arguments are the value of [ctx.Err()] and the number
    of loop turns the phase has made when the caller stops waiting. *)
Inductive Race : Type :=
| PhaseFirst
| CtxDoneFirst (ctxErr : error) (turns : nat).

Inductive RunResult : Type :=
| Finished
| Fatal (msg : string) (err : error)
| Blocked
| Crashed (msg : string).

Section WithWorld.
Context {World : Type}.

Record InvokeResult (Container : Type) : Type := mkInvokeResult {
  ir_container : Container;
  ir_world : World;
  ir_appended : list (lifecycle.Hook World * string);
  ir_err : option error
}.

(** Modelled from the spec: go.uber.org/dig, the "construction
    mechanism (external collaborator)" of section 6, whose source is not
    part of the repository: [Register(value) -> error],
    [Invoke(fn) -> error], [Visualize(error)].  An invocation runs user
    code, which may change the world and append hooks (paired with the
    caller label [Append] computes for them). *)
Record Dig : Type := mkDig {
  Container : Type;
  dig_New : Container;
  dig_Provide : Container -> Value -> list ProvideOption -> Container * option error;
  dig_Invoke : Container -> Value -> World -> InvokeResult Container;
  dig_CanVisualizeError : error -> bool;
  dig_Visualize : Container -> option error -> string;
  (** [%v] of a value *)
  Sprint : Value -> string
}.

(** [ErrorHandler]: the interface with the method [HandleError(error)]. *)
Record ErrorHandler : Type := mkErrorHandler {
  HandleError : error -> World -> World
}.

(** The [Option] implementations of the file: [Error], [Provide],
    [Invoke], [Options], [StartTimeout], [StopTimeout], [Logger],
    [ErrorHook]. *)
#[warnings="-register-all"]
Inductive Option : Type :=
| ErrorOption (errs : list (option error))
| provideOption (constructors : list Value)
| invokeOption (funcs : list Value)
| optionGroup (opts : list Option)
| StartTimeout (v : Duration)
| StopTimeout (v : Duration)
| Logger
| errorHookOption (funcs : list ErrorHandler).

Variable dig : Dig.

Record App : Type := mkApp {
  err : option error;
  container : Container dig;
  lifecycle : lifecycle.Lifecycle World;
  provides : list Value;
  invokes : list Value;
  startTimeout : Duration;
  stopTimeout : Duration;
  errorHooks : list ErrorHandler;
  dones : list Chan
}.

Definition setErr (app : App) (e : option error) : App :=
  mkApp e (container app) (lifecycle app) (provides app) (invokes app)
        (startTimeout app) (stopTimeout app) (errorHooks app) (dones app).

Definition setContainer (app : App) (c : Container dig) : App :=
  mkApp (err app) c (lifecycle app) (provides app) (invokes app)
        (startTimeout app) (stopTimeout app) (errorHooks app) (dones app).

Definition setLifecycle (app : App) (l : lifecycle.Lifecycle World) : App :=
  mkApp (err app) (container app) l (provides app) (invokes app)
        (startTimeout app) (stopTimeout app) (errorHooks app) (dones app).

Definition setDones (app : App) (ds : list Chan) : App :=
  mkApp (err app) (container app) (lifecycle app) (provides app) (invokes app)
        (startTimeout app) (stopTimeout app) (errorHooks app) ds.

(** [Option.apply] *)
Fixpoint apply (o : Option) (app : App) : App :=
  match o with
  | ErrorOption errs =>
      setErr app (multierr.Append (err app) (multierr.Combine errs))
  | provideOption po =>
      mkApp (err app) (container app) (lifecycle app) (provides app ++ po)
            (invokes app) (startTimeout app) (stopTimeout app)
            (errorHooks app) (dones app)
  | invokeOption io =>
      mkApp (err app) (container app) (lifecycle app) (provides app)
            (invokes app ++ io) (startTimeout app) (stopTimeout app)
            (errorHooks app) (dones app)
  | optionGroup og => fold_left (fun a opt => apply opt a) og app
  | StartTimeout v =>
      mkApp (err app) (container app) (lifecycle app) (provides app)
            (invokes app) v (stopTimeout app) (errorHooks app) (dones app)
  | StopTimeout v =>
      mkApp (err app) (container app) (lifecycle app) (provides app)
            (invokes app) (startTimeout app) v (errorHooks app) (dones app)
  | Logger => setLifecycle app lifecycle.New
  | errorHookOption eho =>
      mkApp (err app) (container app) (lifecycle app) (provides app)
            (invokes app) (startTimeout app) (stopTimeout app)
            (errorHooks app ++ eho) (dones app)
  end.

(** [errorHandlerList.HandleError]; [i] is the position of the head of
    [ehl] in the list. *)
Fixpoint handleErrorFrom (i : nat) (ehl : list ErrorHandler) (e : error)
    (st : State World) : State World :=
  match ehl with
  | [] => st
  | eh :: rest =>
      handleErrorFrom (S i) rest e
        (lifecycle.record (CallHandleError i e) (HandleError eh e (world st)) st)
  end.

Definition errorHandlerList_HandleError (ehl : list ErrorHandler) (e : error)
    (st : State World) : State World :=
  handleErrorFrom 0 ehl e st.

Definition errorf (prefix : string) (v : Value) : option error :=
  Some (errorString (prefix ++ Sprint dig v)).

(** The [if err := app.container.Provide(...); err != nil] statement. *)
Definition containerProvide (app : App) (target : Value)
    (opts : list ProvideOption) : App :=
  let '(c, e) := dig_Provide dig (container app) target opts in
  match e with
  | Some _ => setErr (setContainer app c) e
  | None => setContainer app c
  end.

Definition provide (app : App) (constructor : Value) : App :=
  match err app with
  | Some _ => app
  | None =>
      match constructor with
      | VOption _ =>
          setErr app (errorf "fx.Option should be passed to fx.New directly, not to fx.Provide: fx.Provide received " constructor)
      | VAnnotated name group target =>
          if (0 <? String.length group)%nat && (0 <? String.length name)%nat then
            setErr app (errorf "fx.Annotate may not specify both name and group for " constructor)
          else if (0 <? String.length name)%nat then
            containerProvide app target [digName name]
          else if (0 <? String.length group)%nat then
            containerProvide app target [digGroup group]
          else containerProvide app target []
      | VFunc _ true =>
          setErr app (errorf "fx.Annotated should be passed to fx.Provide directly, it should not be returned by the constructor: fx.Provide received " constructor)
      | _ => containerProvide app constructor []
      end
  end.

(** [lifecycleWrapper.Append], called by user code during an invocation. *)
Definition appendAll (l : lifecycle.Lifecycle World)
    (hs : list (lifecycle.Hook World * string)) : lifecycle.Lifecycle World :=
  fold_left (fun l' hc => lifecycle.Append l' (fst hc) (snd hc)) hs l.

Definition containerInvoke (app : App) (fn : Value) (st : State World)
    : option error * App * State World :=
  let r := dig_Invoke dig (container app) fn (world st) in
  (ir_err _ r,
   setLifecycle (setContainer app (ir_container _ r))
                (appendAll (lifecycle app) (ir_appended _ r)),
   mkState (ir_world _ r) (calls st)).

Fixpoint executeInvokesFrom (fns : list Value) (app : App) (st : State World)
    : option error * App * State World :=
  match fns with
  | [] => (None, app, st)
  | fn :: rest =>
      let '(e, app', st') :=
        match fn with
        | VOption _ =>
            (errorf "fx.Option should be passed to fx.New directly, not to fx.Invoke: fx.Invoke received " fn, app, st)
        | _ => containerInvoke app fn st
        end in
      match e with
      | Some _ => (e, app', st')
      | None => executeInvokesFrom rest app' st'
      end
  end.

Definition executeInvokes (app : App) (st : State World)
    : option error * App * State World :=
  executeInvokesFrom (invokes app) app st.

(** The three constructors [New] always provides. *)
Definition lifecycleConstructor : Value := VFunc "func() Lifecycle" false.
Definition shutdownerConstructor : Value := VFunc "app.shutdowner" false.
Definition dotGraphConstructor : Value := VFunc "app.dotGraph" false.

Definition initialApp : App :=
  {| err := None;
     container := dig_New dig;
     lifecycle := lifecycle.New;
     provides := [];
     invokes := [];
     startTimeout := DefaultTimeout;
     stopTimeout := DefaultTimeout;
     errorHooks := [];
     dones := [] |}.

Definition applyOptions (opts : list Option) (app : App) : App :=
  fold_left (fun a opt => apply opt a) opts app.

Definition provideAll (app : App) : App :=
  let app1 := fold_left provide (provides app) app in
  provide (provide (provide app1 lifecycleConstructor) shutdownerConstructor)
          dotGraphConstructor.

Definition New (opts : list Option) (st : State World) : App * State World :=
  let app := provideAll (applyOptions opts initialApp) in
  match err app with
  | Some _ => (app, st)
  | None =>
      let '(e, app', st') := executeInvokes app st in
      match e with
      | None => (app', st')
      | Some e' =>
          let app'' := setErr app' (Some e') in
          let herr :=
            if dig_CanVisualizeError dig e'
            then errorWithGraph (dig_Visualize dig (container app'') (Some e')) e'
            else e' in
          (app'', errorHandlerList_HandleError (errorHooks app'') herr st')
      end
  end.

Definition Err (app : App) : option error := err app.

(** [withTimeout]: [f] runs in a goroutine and the caller waits for its
    result or for [ctx.Done()], whichever [race] says comes first.  When the
    phase settles first the caller gets its result and the state it left.
    When the context is done first the caller gets [ctx.Err()] at once, and
    the state is the one the goroutine has reached by then: [within turns]
    is the same phase [f] after [turns] turns of its loop (a goroutine that
    has panicked by then has ended the process).  The goroutine is never
    stopped; what it does after the caller has returned is not part of the
    result. *)
Definition withTimeout {S : Type} (race : Race) (ctx : Context)
    (f : Context -> S -> Outcome (option error) * S)
    (within : nat -> Context -> S -> bool * S) (s : S)
    : Outcome (option error) * S :=
  match race with
  | PhaseFirst =>
      let '(out, s') := f ctx s in
      (match out with
       | Panicked m => Panicked m
       | Returned r => Returned r
       end, s')
  | CtxDoneFirst e turns =>
      let '(panicked, s') := within turns ctx s in
      (if panicked then Panicked "index out of range" else Returned (Some e), s')
  end.

(** [App.start] *)
Definition start (ctx : Context) (s : App * State World)
    : Outcome (option error) * (App * State World) :=
  let '(app, st) := s in
  match err app with
  | Some e => (Returned (Some e), (app, st))
  | None =>
      let '(e, l1, st1) := lifecycle.Start (lifecycle app) ctx st in
      match e with
      | Some e1 =>
          let '(out, l2, st2) := lifecycle.Stop l1 ctx st1 in
          (match out with
           | Returned (Some stopErr) =>
               Returned (multierr.Append (Some e1) (Some stopErr))
           | Returned None => Returned (Some e1)
           | Panicked m => Panicked m
           end, (setLifecycle app l2, st2))
      | None => (Returned None, (setLifecycle app l1, st1))
      end
  end.

(** Where [App.start] stands after at most [turns] loop turns: in the
    walk of [lifecycle.Start] or, once that has failed, in the rollback. *)
Definition startWithin (turns : nat) (ctx : Context) (s : App * State World)
    : bool * (App * State World) :=
  let '(app, st) := s in
  match err app with
  | Some _ => (false, (app, st))
  | None =>
      let hs := lifecycle.hooks (lifecycle app) in
      let '(res, rest, n1, st1) :=
        lifecycle.startLoopWithin turns hs 0 ctx
          (lifecycle.numStarted (lifecycle app)) st in
      match res with
      | Some (Some _) =>
          let '(panicked, n2, st2) := lifecycle.stopLoopWithin rest hs n1 ctx st1 in
          (panicked,
           (setLifecycle app {| lifecycle.hooks := hs; lifecycle.numStarted := n2 |},
            st2))
      | _ =>
          (false,
           (setLifecycle app {| lifecycle.hooks := hs; lifecycle.numStarted := n1 |},
            st1))
      end
  end.

(** [app.lifecycle.Stop] as the function value passed to [withTimeout]. *)
Definition lifecycleStop (ctx : Context) (s : App * State World)
    : Outcome (option error) * (App * State World) :=
  let '(app, st) := s in
  let '(out, l, st') := lifecycle.Stop (lifecycle app) ctx st in
  (out, (setLifecycle app l, st')).

(** Where [app.lifecycle.Stop] stands after at most [turns] loop turns. *)
Definition lifecycleStopWithin (turns : nat) (ctx : Context) (s : App * State World)
    : bool * (App * State World) :=
  let '(app, st) := s in
  let hs := lifecycle.hooks (lifecycle app) in
  let '(panicked, n, st') :=
    lifecycle.stopLoopWithin turns hs (lifecycle.numStarted (lifecycle app)) ctx st in
  (panicked,
   (setLifecycle app {| lifecycle.hooks := hs; lifecycle.numStarted := n |}, st')).

Definition Start (race : Race) (ctx : Context) (s : App * State World)
    : Outcome (option error) * (App * State World) :=
  withTimeout race ctx start startWithin s.

Definition Stop (race : Race) (ctx : Context) (s : App * State World)
    : Outcome (option error) * (App * State World) :=
  withTimeout race ctx lifecycleStop lifecycleStopWithin s.

(** [Done]: a fresh channel is appended; the result is its position. *)
Definition Done (app : App) : nat * App :=
  (List.length (dones app), setDones app (dones app ++ [None])).

(** The [select] with [default] on one channel. *)
Fixpoint broadcastLoop (signal : Signal) (ds : list Chan) (unsent : nat)
    : list Chan * nat :=
  match ds with
  | [] => ([], unsent)
  | done :: rest =>
      match done with
      | None =>
          let '(ds', u) := broadcastLoop signal rest unsent in
          (Some signal :: ds', u)
      | Some pending =>
          let '(ds', u) := broadcastLoop signal rest (S unsent) in
          (Some pending :: ds', u)
      end
  end.

Definition broadcastError (signal : Signal) (unsent total : nat) : error :=
  errorString ("failed to send " ++ Signal_String signal ++ " signal to "
               ++ itoa unsent ++ " out of " ++ itoa total ++ " channels").

Definition broadcastSignal (signal : Signal) (app : App) : option error * App :=
  let '(ds, unsent) := broadcastLoop signal (dones app) 0 in
  (if (unsent =? 0)%nat then None
   else Some (broadcastError signal unsent (List.length (dones app))),
   setDones app ds).

(** [ShutdownOption]: the interface with the method [apply], which
    takes a pointer to the [shutdowner]; a [shutdowner] holds only the [App]. *)
Record ShutdownOption : Type := mkShutdownOption {
  shutdown_apply : App -> App
}.

Definition Shutdown (opts : list ShutdownOption) (app : App) : option error * App :=
  broadcastSignal SIGTERM app.

(** Receiving from the channel at position [i]. *)
Definition receive (i : nat) (app : App) : option (Signal * App) :=
  match nth_error (dones app) i with
  | Some (Some sig) =>
      Some (sig, setDones app (firstn i (dones app) ++ None :: skipn (S i) (dones app)))
  | _ => None
  end.

(** [App.run]; [Fatalf] ends the process: with [Fatal] and [Crashed] the
    state is the one the process ends in, which after a deadline is the one
    the phase had reached when the deadline passed. *)
Definition run (raceStart raceStop : Race) (done : nat) (s : App * State World)
    : RunResult * (App * State World) :=
  let startCtx := WithTimeout Background (startTimeout (fst s)) in
  let '(out, s1) := Start raceStart startCtx s in
  match out with
  | Panicked m => (Crashed m, s1)
  | Returned (Some e) => (Fatal "ERROR\t\tFailed to start: " e, s1)
  | Returned None =>
      match receive done (fst s1) with
      | None => (Blocked, s1)
      | Some (_, app2) =>
          let stopCtx := WithTimeout Background (stopTimeout app2) in
          let '(out2, s3) := Stop raceStop stopCtx (app2, snd s1) in
          match out2 with
          | Panicked m => (Crashed m, s3)
          | Returned (Some e) => (Fatal "ERROR\t\tFailed to stop cleanly: " e, s3)
          | Returned None => (Finished, s3)
          end
      end
  end.

(** [App.Run]: [app.run(app.Done())]. *)
Definition Run (raceStart raceStop : Race) (s : App * State World)
    : RunResult * (App * State World) :=
  let '(done, app) := Done (fst s) in
  run raceStart raceStop done (app, snd s).

(** *** Histories of an application

    What can happen to an [App] once [New] has returned it: calls of
    [Start], [Stop] and [Done], a broadcast (by [Shutdown], or by the
    operating system, which [signal.Notify] delivers the same way), a
    receive on a [Done] channel, and a late [Append] through the
    [Lifecycle] handed to user code.  A call that panics ends the process
    and has no successor.  A phase whose caller returned at the deadline is
    taken to have stopped there: what its goroutine would go on to do is not
    a step. *)
Inductive step : App * State World -> App * State World -> Prop :=
| step_Start race ctx s r s' :
    Start race ctx s = (Returned r, s') -> step s s'
| step_Stop race ctx s r s' :
    Stop race ctx s = (Returned r, s') -> step s s'
| step_Done app st :
    step (app, st) (snd (Done app), st)
| step_broadcast signal app st :
    step (app, st) (snd (broadcastSignal signal app), st)
| step_receive i app st sig app' :
    receive i app = Some (sig, app') -> step (app, st) (app', st)
| step_Append app st hook callerName :
    step (app, st)
         (setLifecycle app (lifecycle.Append (lifecycle app) hook callerName), st).

Inductive reachable : App * State World -> Prop :=
| reachable_New opts st : reachable (New opts st)
| reachable_step s s' : reachable s -> step s s' -> reachable s'.

(** *** Vocabulary of the statements *)

(** Slots that hold an undelivered signal, and slots that are free. *)
Definition pendingSlots (ds : list Chan) : nat :=
  List.length (filter (fun d => match d with Some _ => true | None => false end) ds).

Definition freeSlots (ds : list Chan) : nat :=
  List.length (filter (fun d => match d with Some _ => false | None => true end) ds).

(** What a non-blocking send does to one slot. *)
Definition deliver (signal : Signal) (d : Chan) : Chan :=
  match d with
  | None => Some signal
  | Some pending => Some pending
  end.

(** A stop call whose context was derived with the stop timeout. *)
Definition underStopTimeout (app : App) (c : Call) : bool :=
  match c with
  | CallStop _ (WithTimeout _ d) => (d =? stopTimeout app)%Z
  | CallStop _ Background => false
  | _ => true
  end.

Definition handlerCalls (cs : list Call) : list Call :=
  filter (fun c => match c with CallHandleError _ _ => true | _ => false end) cs.

(** The constructors [provide] refuses by itself, before the container
    sees them: an [Option], an [Annotated] with both a name and a group, a
    function that returns [Annotated]. *)
Definition refusedConstructor (v : Value) : bool :=
  match v with
  | VOption _ => true
  | VAnnotated name group _ =>
      (0 <? String.length group)%nat && (0 <? String.length name)%nat
  | VFunc _ returnsAnnotated => returnsAnnotated
  | VOther _ => false
  end.

(** Options that can change the start timeout, at any depth of grouping. *)
Fixpoint setsStartTimeout (o : Option) : bool :=
  match o with
  | StartTimeout _ => true
  | optionGroup og => existsb setsStartTimeout og
  | _ => false
  end.

Fixpoint setsStopTimeout (o : Option) : bool :=
  match o with
  | StopTimeout _ => true
  | optionGroup og => existsb setsStopTimeout og
  | _ => false
  end.

End WithWorld.

(** The [errWithGraph] interface: only [errorWithGraph] has a [Graph]
    method. *)
Definition Graph (e : error) : option string :=
  match e with
  | errorWithGraph graph _ => Some graph
  | _ => None
  end.

(** [VisualizeError] *)
Definition VisualizeError (err : option error) : string * option error :=
  match err with
  | Some e =>
      match Graph e with
      | Some graph =>
          if (graph =? "")%string
          then ("", Some (errorString "unable to visualize error"))
          else (graph, None)
      | None => ("", Some (errorString "unable to visualize error"))
      end
  | None => ("", Some (errorString "unable to visualize error"))
  end.

Arguments mkInvokeResult {World Container} _ _ _ _.
Arguments err {World dig} _.
Arguments container {World dig} _.
Arguments lifecycle {World dig} _.
Arguments provides {World dig} _.
Arguments invokes {World dig} _.
Arguments startTimeout {World dig} _.
Arguments stopTimeout {World dig} _.
Arguments errorHooks {World dig} _.
Arguments dones {World dig} _.
Arguments setErr {World dig} _ _.
Arguments setContainer {World dig} _ _.
Arguments setLifecycle {World dig} _ _.
Arguments setDones {World dig} _ _.
Arguments provideAll {World dig} _.
Arguments Err {World dig} _.
Arguments Done {World dig} _.
Arguments apply {World dig} _ _.
Arguments applyOptions {World dig} _ _.
Arguments provide {World dig} _ _.
Arguments containerProvide {World dig} _ _ _.
Arguments containerInvoke {World dig} _ _ _.
Arguments executeInvokesFrom {World dig} _ _ _.
Arguments executeInvokes {World dig} _ _.
Arguments start {World dig} _ _.
Arguments lifecycleStop {World dig} _ _.
Arguments startWithin {World dig} _ _ _.
Arguments lifecycleStopWithin {World dig} _ _ _.
Arguments Start {World dig} _ _ _.
Arguments Stop {World dig} _ _ _.
Arguments broadcastSignal {World dig} _ _.
Arguments Shutdown {World dig} _ _.
Arguments receive {World dig} _ _.
Arguments run {World dig} _ _ _ _.
Arguments Run {World dig} _ _ _.
Arguments step {World dig} _ _.
Arguments reachable {World dig} _.
Arguments underStopTimeout {World dig} _ _.
Arguments ErrorHandler World : clear implicits.
Arguments Option World : clear implicits.
Arguments Dig World : clear implicits.

End fx.

(** ** Package fxreflect: caller labels *)

Module fxreflect.

Import Ascii.

(** *** Strings *)

(** [strings.Contains(s, substr)] *)
Fixpoint Contains (s substr : string) : bool :=
  String.prefix substr s
  || match s with
     | EmptyString => false
     | String _ s' => Contains s' substr
     end.

(** Whether the byte [c] occurs in [s]. *)
Fixpoint hasByte (c : Ascii.ascii) (s : string) : bool :=
  match s with
  | EmptyString => false
  | String c' s' => Ascii.eqb c c' || hasByte c s'
  end.

(** [s[n:]] *)
Fixpoint drop (n : nat) (s : string) : string :=
  match n, s with
  | 0, _ => s
  | S n', String _ s' => drop n' s'
  | S _, EmptyString => EmptyString
  end.

(** The text before and the text after the first occurrence of [sep]. *)
Fixpoint cut (sep s : string) : option (string * string) :=
  if String.prefix sep s then Some (EmptyString, drop (String.length sep) s)
  else match s with
       | EmptyString => None
       | String c s' =>
           match cut sep s' with
           | Some (before, after) => Some (String c before, after)
           | None => None
           end
       end.

(** *** Modelled library functions *)

Definition ishex (c : Ascii.ascii) : bool :=
  let n := Ascii.nat_of_ascii c in
  (((48 <=? n) && (n <=? 57)) || ((97 <=? n) && (n <=? 102))
   || ((65 <=? n) && (n <=? 70)))%nat.

Definition unhex (c : Ascii.ascii) : nat :=
  let n := Ascii.nat_of_ascii c in
  if ((48 <=? n) && (n <=? 57))%nat then n - 48
  else if ((97 <=? n) && (n <=? 102))%nat then n - 97 + 10
  else if ((65 <=? n) && (n <=? 70))%nat then n - 65 + 10
  else 0.

(** First pass of [url.QueryUnescape]: the number of escapes and whether
    there is a plus sign, or nothing when an escape is malformed. *)
Fixpoint scanEscapes (s : string) : option (nat * bool) :=
  match s with
  | EmptyString => Some (0, false)
  | String c rest =>
      if Ascii.eqb c "%"%char then
        match rest with
        | String a (String b rest') =>
            if ishex a && ishex b then
              match scanEscapes rest' with
              | Some (n, hasPlus) => Some (S n, hasPlus)
              | None => None
              end
            else None
        | _ => None
        end
      else if Ascii.eqb c "+"%char then
        match scanEscapes rest with
        | Some (n, _) => Some (n, true)
        | None => None
        end
      else scanEscapes rest
  end.

(** Second pass: escapes become bytes, plus signs become spaces.  The
    first pass has excluded an escape without two digits. *)
Fixpoint decodeEscapes (s : string) : string :=
  match s with
  | EmptyString => EmptyString
  | String c rest =>
      if Ascii.eqb c "%"%char then
        match rest with
        | String a (String b rest') =>
            String (Ascii.ascii_of_nat (16 * unhex a + unhex b)) (decodeEscapes rest')
        | _ => EmptyString
        end
      else if Ascii.eqb c "+"%char then String " "%char (decodeEscapes rest)
      else String c (decodeEscapes rest)
  end.

(** Modelled from the spec: [url.QueryUnescape] of the Go standard
    library, which is not part of the repository; the spec leaves "log-line
    formatting" to it.  [None] is the error result. *)
Definition QueryUnescape (s : string) : option string :=
  match scanEscapes s with
  | None => None
  | Some (n, hasPlus) =>
      if (n =? 0)%nat && negb hasPlus then Some s else Some (decodeEscapes s)
  end.

Definition newline : Ascii.ascii := Ascii.ascii_of_nat 10.

(** Modelled from the spec: [vendorRe.ReplaceAllString(function,
    "vendor/")] for the pattern [^.*?/vendor/] of the Go [regexp] package:
    the shortest text from the start of the string up to a [/vendor/],
    where the dot matches no newline, is replaced. *)
Definition replaceVendor (function : string) : string :=
  match cut "/vendor/" function with
  | Some (before, after) =>
      if hasByte newline before then function else "vendor/" ++ after
  | None => function
  end.

(** *** The functions of the package *)

Definition sanitize (function : string) : string :=
  replaceVendor match QueryUnescape function with
                | Some unescaped => unescaped
                | None => function
                end.

(** The fields of [runtime.Frame] the package reads. *)
Record Frame : Type := mkFrame {
  Function : string;
  File : string
}.

Definition shouldIgnoreFrame (f : Frame) : bool :=
  if Contains (File f) "_test.go" then false
  else if Contains (File f) "go.uber.org/fx" then true
  else false.

(** [frames.Next()]: the next frame, and whether a further call will
    return a frame. *)
Definition Next (frames : list Frame) : Frame * bool * list Frame :=
  match frames with
  | [] => (mkFrame "" "", false, [])
  | f :: rest => (f, match rest with [] => false | _ => true end, rest)
  end.

(** The loop of [Caller]: [f] and [more] are the results of the last
    [Next], [frames] what the iterator still holds. *)
Fixpoint callerLoop (f : Frame) (more : bool) (frames : list Frame) : string :=
  if more then
    if shouldIgnoreFrame f then
      match frames with
      | [] => "n/a"
      | f' :: rest => callerLoop f' (match rest with [] => false | _ => true end) rest
      end
    else sanitize (Function f)
  else "n/a".

(** [Caller]; [n] is the result of [runtime.Callers(2, pcs)] and [frames]
    the frames of those program counters, innermost first. *)
Definition Caller (n : nat) (frames : list Frame) : string :=
  if (n =? 0)%nat then "n/a"
  else let '(f, more, rest) := Next frames in callerLoop f more rest.

(** [FuncName]; [isFunc] tells whether the value is of kind [Func], and
    [name] is the name [runtime.FuncForPC] gives for it. *)
Definition FuncName (isFunc : bool) (name : string) : string :=
  if negb isFunc then "n/a" else sanitize name ++ "()".

(** [Lifecycle.Append] with the label computed as the code does. *)
Definition AppendFrom {World : Type} (l : lifecycle.Lifecycle World)
    (hook : lifecycle.Hook World) (n : nat) (frames : list Frame)
    : lifecycle.Lifecycle World :=
  lifecycle.Append l hook (Caller n frames).

End fxreflect.

(** ** Concrete inputs used by the examples *)

Module Examples.

Import lifecycle.

(** The world of the examples counts the actions that ran. *)
Definition tick : Action nat := fun _ w => (S w, None).

Definition failWith (msg : string) : Action nat :=
  fun _ w => (S w, Some (errorString msg)).

(** Start and stop both succeed. *)
Definition hookA : Hook nat :=
  {| OnStart := Some tick; OnStop := Some tick; caller := "A" |}.

(** Start fails. *)
Definition hookB : Hook nat :=
  {| OnStart := Some (failWith "B: start failed"); OnStop := Some tick; caller := "B" |}.

(** No start action; the stop action fails. *)
Definition hookC : Hook nat :=
  {| OnStart := None; OnStop := Some (failWith "C: stop failed"); caller := "C" |}.

(** A start action only. *)
Definition hookD : Hook nat :=
  {| OnStart := Some tick; OnStop := None; caller := "D" |}.

Definition st0 : State nat := {| world := 0; calls := [] |}.

Definition ctxA : Context := WithTimeout Background (10 * Second)%Z.
Definition ctxB : Context := WithTimeout Background (20 * Second)%Z.

(** A container that records what it is given.  The constructor named
    [bad] is refused; invoking [registerAB] appends [hookA] and [hookB],
    invoking [fail] returns an error, invoking [cycle] returns an error
    the container can draw. *)
Definition exDig : fx.Dig nat :=
  {| fx.Container := list fx.Value;
     fx.dig_New := [];
     fx.dig_Provide := fun c v _ =>
       (c ++ [v],
        match v with
        | fx.VFunc name _ =>
            if (name =? "bad")%string then Some (errorString "bad constructor") else None
        | _ => None
        end);
     fx.dig_Invoke := fun c fn w =>
       match fn with
       | fx.VFunc name _ =>
           if (name =? "registerAB")%string then
             fx.mkInvokeResult c (S w) [(hookA, "main.registerA"); (hookB, "main.registerB")] None
           else if (name =? "fail")%string then
             fx.mkInvokeResult c (S w) [] (Some (errorString "invoke failed"))
           else if (name =? "cycle")%string then
             fx.mkInvokeResult c (S w) [] (Some (errorString "cycle detected"))
           else fx.mkInvokeResult c (S w) [] None
       | _ => fx.mkInvokeResult c w [] (Some (errorString "can't invoke non-function"))
       end;
     fx.dig_CanVisualizeError := fun e =>
       match e with
       | errorString msg => (msg =? "cycle detected")%string
       | _ => false
       end;
     fx.dig_Visualize := fun _ _ => "digraph {}";
     fx.Sprint := fun v =>
       match v with
       | fx.VOption r => r
       | fx.VAnnotated _ _ _ => "{Annotated}"
       | fx.VFunc name _ => name
       | fx.VOther r => r
       end |}.

(** Error observers: each adds its own amount to the world. *)
Definition observer (k : nat) : fx.ErrorHandler nat :=
  {| fx.HandleError := fun _ w => k + w |}.

Definition registerAB : fx.Value := fx.VFunc "registerAB" false.
Definition failingInvoke : fx.Value := fx.VFunc "fail" false.
Definition cyclicInvoke : fx.Value := fx.VFunc "cycle" false.

Definition e1 : error := errorString "first".
Definition e2 : error := errorString "second".

(** Hooks A and B, start timeout 10s, stop timeout 20s. *)
Definition appAB : fx.App exDig * State nat :=
  fx.New exDig
    [fx.StartTimeout (10 * Second)%Z; fx.StopTimeout (20 * Second)%Z;
     fx.invokeOption [registerAB]] st0.

(** Hooks A and B and one observer. *)
Definition appObserved : fx.App exDig * State nat :=
  fx.New exDig [fx.errorHookOption [observer 1]; fx.invokeOption [registerAB]] st0.

(** Hook C, whose stop action fails, then hook B, whose start fails. *)
Definition appCB : fx.App exDig * State nat :=
  (fx.setLifecycle (fst appAB)
     {| hooks := [hookC; hookB]; numStarted := 0 |}, st0).

(** Hooks A and B are registered, then an invocation fails. *)
Definition appFailed : fx.App exDig * State nat :=
  fx.New exDig [fx.invokeOption [registerAB; failingInvoke]] st0.

(** Hooks A and D, which both start; one listener with a signal waiting. *)
Definition appAD : fx.App exDig * State nat :=
  (fx.setDones
     (fx.setLifecycle (fst appAB) {| hooks := [hookA; hookD]; numStarted := 0 |})
     [Some fx.SIGTERM],
   st0).

(** The same with the listener's channel empty. *)
Definition appADwaiting : fx.App exDig * State nat :=
  (fx.setDones (fst appAD) [None], st0).

End Examples.

(** * Properties of package lifecycle *)

Module LifecycleFacts.

Import lifecycle.

Section WithWorld.
Context {World : Type}.

Local Abbreviation Hook := (Hook World).
Local Abbreviation Lifecycle := (Lifecycle World).

Implicit Types (hs pre post : list Hook) (h : Hook) (l : Lifecycle)
               (st : State World) (ctx : Context).

Lemma indicesWhere_app (p : Hook -> bool) hs1 hs2 from :
  indicesWhere p from (hs1 ++ hs2)
  = indicesWhere p from hs1 ++ indicesWhere p (from + List.length hs1) hs2.
Proof.
  revert from; induction hs1 as [|h hs1 IH]; intro from; simpl.
  - now rewrite Nat.add_0_r.
  - rewrite IH, <- app_assoc. now replace (S from + List.length hs1) with (from + S (List.length hs1)) by lia.
Qed.

(** [indicesWhere] lists exactly the positions of the hooks that satisfy
    the test. *)
Lemma indicesWhere_In (p : Hook -> bool) hs from i :
  In i (indicesWhere p from hs)
  <-> exists h, from <= i /\ nth_error hs (i - from) = Some h /\ p h = true.
Proof.
  revert from; induction hs as [|h hs IH]; intro from; simpl.
  - split; [tauto | intros (h & _ & H & _)]. destruct (i - from); discriminate.
  - rewrite in_app_iff, IH. split.
    + intros [H | (h' & Hle & Hn & Hp)].
      * destruct (p h) eqn:E; simpl in H; [|tauto]. destruct H as [<- | []].
        exists h. rewrite Nat.sub_diag. auto.
      * exists h'. split; [lia|]. split; [|assumption].
        replace (i - from) with (S (i - S from)) by lia. assumption.
    + intros (h' & Hle & Hn & Hp).
      destruct (Nat.eq_dec i from) as [-> | Hne].
      * rewrite Nat.sub_diag in Hn. simpl in Hn. injection Hn as ->.
        left. rewrite Hp. now left.
      * right. exists h'. split; [lia|]. split; [|assumption].
        replace (i - from) with (S (i - S from)) in Hn by lia. assumption.
Qed.

Lemma indicesWhere_bound (p : Hook -> bool) hs from i :
  In i (indicesWhere p from hs) -> from <= i < from + List.length hs.
Proof.
  rewrite indicesWhere_In. intros (h & Hle & Hn & _).
  assert (i - from < List.length hs) by (apply nth_error_Some; congruence). lia.
Qed.

(** and lists them in increasing order. *)
Lemma indicesWhere_sorted (p : Hook -> bool) hs from :
  StronglySorted lt (indicesWhere p from hs).
Proof.
  revert from; induction hs as [|h hs IH]; intro from; simpl.
  - constructor.
  - destruct (p h); simpl; [|apply IH].
    constructor; [apply IH|]. apply Forall_forall. intros i Hi.
    apply indicesWhere_bound in Hi. lia.
Qed.

(** *** The start loop *)

Lemma startLoop_ok hs : forall i ctx n st n' st',
  startLoop hs i ctx n st = (None, n', st') ->
  n' = n + List.length hs
  /\ calls st' = calls st ++ map (fun j => CallStart j ctx) (indicesWhere hasStart i hs).
Proof.
  induction hs as [|h hs IH]; intros i ctx n st n' st' H; simpl in H.
  - injection H as <- <-. simpl. now rewrite Nat.add_0_r, app_nil_r.
  - unfold hasStart at 1. simpl. destruct (OnStart h) as [f|].
    + destruct (f ctx (world st)) as [w [e|]]; [discriminate|].
      apply IH in H as [-> ->]. simpl. split; [lia|]. now rewrite <- app_assoc.
    + apply IH in H as [-> ->]. simpl. split; [lia|reflexivity].
Qed.

Lemma startLoop_app hs1 hs2 : forall i ctx n st n' st',
  startLoop hs1 i ctx n st = (None, n', st') ->
  startLoop (hs1 ++ hs2) i ctx n st = startLoop hs2 (i + List.length hs1) ctx n' st'.
Proof.
  induction hs1 as [|h hs1 IH]; intros i ctx n st n' st' H; simpl in H |- *.
  - injection H as <- <-. now rewrite Nat.add_0_r.
  - replace (i + S (List.length hs1)) with (S i + List.length hs1) by lia.
    destruct (OnStart h) as [f|].
    + destruct (f ctx (world st)) as [w [e|]]; [discriminate|]. now apply IH.
    + now apply IH.
Qed.

(** [Start] never raises [numStarted] by more than the number of hooks,
    and only records start calls. *)
Lemma startLoop_numStarted hs : forall i ctx n st r n' st',
  startLoop hs i ctx n st = (r, n', st') -> n' <= n + List.length hs.
Proof.
  induction hs as [|h hs IH]; intros i ctx n st r n' st' H; simpl in H.
  - injection H as _ <- _. lia.
  - destruct (OnStart h) as [f|].
    + destruct (f ctx (world st)) as [w [e|]].
      * injection H as _ <- _. lia.
      * apply IH in H. simpl. lia.
    + apply IH in H. simpl. lia.
Qed.

(** *** The stop loop *)

Lemma firstn_S_nth_error hs m h :
  nth_error hs m = Some h -> firstn (S m) hs = firstn m hs ++ [h].
Proof.
  revert m; induction hs as [|x hs IH]; intros [|m] H; simpl in *; try discriminate.
  - now injection H as ->.
  - f_equal. now apply IH.
Qed.

Lemma stopLoop_calls hs : forall n ctx errs st,
  n <= List.length hs ->
  exists errs' st',
    stopLoop hs n ctx errs st = (Returned errs', 0, st')
    /\ calls st' = calls st ++ map (fun j => CallStop j ctx)
                                   (rev (indicesWhere hasStop 0 (firstn n hs))).
Proof.
  induction n as [|m IH]; intros ctx errs st Hn.
  - exists errs, st. simpl. now rewrite app_nil_r.
  - destruct (nth_error hs m) as [h|] eqn:Hm.
    2:{ apply nth_error_None in Hm. lia. }
    rewrite (firstn_S_nth_error _ _ _ Hm), indicesWhere_app, rev_app_distr.
    rewrite length_firstn, Nat.min_l by lia. simpl. rewrite Hm.
    unfold hasStop. destruct (OnStop h) as [f|]; simpl.
    + destruct (f ctx (world st)) as [w [e|]].
      * destruct (IH ctx (errs ++ [Some e]) (record (CallStop m ctx) w st))
          as (errs' & st' & -> & Hc); [lia|].
        exists errs', st'. split; [reflexivity|].
        rewrite Hc. simpl. now rewrite <- app_assoc.
      * destruct (IH ctx errs (record (CallStop m ctx) w st))
          as (errs' & st' & -> & Hc); [lia|].
        exists errs', st'. split; [reflexivity|].
        rewrite Hc. simpl. now rewrite <- app_assoc.
    + now apply IH; lia.
Qed.

Lemma stopLoop_returned hs : forall n ctx errs st errs' n' st',
  stopLoop hs n ctx errs st = (Returned errs', n', st') -> n' = 0.
Proof.
  induction n as [|m IH]; intros ctx errs st errs' n' st' H; simpl in H.
  - now injection H as _ <- _.
  - destruct (nth_error hs m) as [h|]; [|discriminate].
    destruct (OnStop h) as [f|]; [|eauto].
    destruct (f ctx (world st)) as [w [e|]]; eauto.
Qed.

(** [Stop] returns whenever [numStarted] is within the registry. *)
Lemma Stop_returns l ctx st :
  numStarted l <= List.length (hooks l) ->
  exists r st',
    Stop l ctx st = (Returned r, {| hooks := hooks l; numStarted := 0 |}, st')
    /\ calls st' = calls st ++ stopCalls ctx (firstn (numStarted l) (hooks l)).
Proof.
  intro Hn. unfold Stop.
  destruct (stopLoop_calls (hooks l) (numStarted l) ctx [] st Hn) as (errs & st' & -> & Hc).
  now exists (multierr.Combine errs), st'.
Qed.

Lemma firstn_length_app {A} (xs ys : list A) :
  firstn (List.length xs) (xs ++ ys) = xs.
Proof.
  induction xs as [|x xs IH]; simpl; [now destruct ys | now rewrite IH].
Qed.

(** *** The stop loop against the stop actions applied in reverse *)

Lemma stopsInReverse_app ctx (a b : list Hook) (w : World) :
  stopsInReverse ctx (a ++ b) w
  = let '(w1, e1) := stopsInReverse ctx b w in
    let '(w2, e2) := stopsInReverse ctx a w1 in
    (w2, e1 ++ e2).
Proof.
  induction a as [|x a IH]; simpl.
  - destruct (stopsInReverse ctx b w) as [w1 e1]. now rewrite app_nil_r.
  - rewrite IH. destruct (stopsInReverse ctx b w) as [w1 e1].
    destruct (stopsInReverse ctx a w1) as [w2 e2].
    destruct (OnStop x) as [f|]; [|reflexivity].
    destruct (f ctx w2) as [w3 [e|]]; [now rewrite app_assoc | reflexivity].
Qed.

Lemma stopLoop_refines hs : forall n ctx errs st,
  n <= List.length hs ->
  stopLoop hs n ctx errs st
  = (Returned (errs ++ snd (stopsInReverse ctx (firstn n hs) (world st))), 0,
     {| world := fst (stopsInReverse ctx (firstn n hs) (world st));
        calls := calls st ++ map (fun j => CallStop j ctx)
                                 (rev (indicesWhere hasStop 0 (firstn n hs))) |}).
Proof.
  induction n as [|m IH]; intros ctx errs st Hn.
  - simpl. rewrite !app_nil_r. now destruct st.
  - destruct (nth_error hs m) as [h|] eqn:Hm.
    2:{ apply nth_error_None in Hm. lia. }
    rewrite (firstn_S_nth_error _ _ _ Hm), indicesWhere_app, rev_app_distr.
    rewrite length_firstn, Nat.min_l by lia.
    rewrite stopsInReverse_app. cbn [stopLoop stopsInReverse indicesWhere]. rewrite Hm.
    unfold hasStop. destruct (OnStop h) as [f|].
    + destruct (f ctx (world st)) as [w [e|]]; rewrite IH by lia; cbn [world calls record];
        destruct (stopsInReverse ctx (firstn m hs) w) as [w2 e2]; cbn [fst snd];
        simpl; now rewrite <- !app_assoc.
    + rewrite IH by lia.
      destruct (stopsInReverse ctx (firstn m hs) (world st)) as [w2 e2]. reflexivity.
Qed.

(** [Stop], with [numStarted] within the registry, does what applying
    the stop actions of the started hooks in reverse does: same world, same
    failures combined, and a call recorded for each. *)
Lemma Stop_refines l ctx st :
  numStarted l <= List.length (hooks l) ->
  Stop l ctx st
  = (Returned (multierr.Combine
                 (snd (stopsInReverse ctx (firstn (numStarted l) (hooks l)) (world st)))),
     {| hooks := hooks l; numStarted := 0 |},
     {| world := fst (stopsInReverse ctx (firstn (numStarted l) (hooks l)) (world st));
        calls := calls st ++ stopCalls ctx (firstn (numStarted l) (hooks l)) |}).
Proof.
  intro Hn. unfold Stop. now rewrite (stopLoop_refines _ _ _ _ _ Hn).
Qed.

(** *** The loops cut short agree with the loops

    Given turns enough to finish, the loop cut short is where the whole
    loop ends. *)

Lemma stopLoopWithin_enough hs ctx : forall n turns errs st,
  n <= turns ->
  stopLoopWithin turns hs n ctx st
  = (match fst (fst (stopLoop hs n ctx errs st)) with
     | Panicked _ => true
     | Returned _ => false
     end,
     snd (fst (stopLoop hs n ctx errs st)), snd (stopLoop hs n ctx errs st)).
Proof.
  induction n as [|m IH]; intros turns errs st Hle; [reflexivity|].
  destruct turns as [|t]; [lia|]. cbn [stopLoopWithin stopLoop].
  destruct (nth_error hs m) as [h|]; [|reflexivity].
  destruct (OnStop h) as [f|]; [|apply IH; lia].
  destruct (f ctx (world st)) as [w [e|]]; apply IH; lia.
Qed.

Lemma startLoopWithin_enough hs ctx : forall i n st turns,
  List.length hs <= turns ->
  exists used,
    used <= List.length hs
    /\ startLoopWithin turns hs i ctx n st
       = (Some (fst (fst (startLoop hs i ctx n st))), turns - used,
          snd (fst (startLoop hs i ctx n st)), snd (startLoop hs i ctx n st))
    /\ snd (fst (startLoop hs i ctx n st)) + used <= n + 2 * List.length hs.
Proof.
  induction hs as [|h rest IH]; intros i n st turns Hle.
  - exists 0. simpl. rewrite Nat.sub_0_r. repeat split; lia.
  - destruct turns as [|t]; [simpl in Hle; lia|].
    cbn [startLoopWithin startLoop List.length] in *.
    destruct (OnStart h) as [f|].
    + destruct (f ctx (world st)) as [w [e|]].
      * exists 1. cbn [fst snd]. split; [lia|]. split; [|lia].
        now rewrite Nat.sub_succ, Nat.sub_0_r.
      * destruct (IH (S i) (S n) (record (CallStart i ctx) w st) t) as (used & Hu & -> & Hb);
          [lia|].
        exists (S used). split; [lia|]. split; [reflexivity | lia].
    + destruct (IH (S i) (S n) st t) as (used & Hu & -> & Hb); [lia|].
      exists (S used). split; [lia|]. split; [reflexivity | lia].
Qed.

(** C1.  Let hook [k] be the first hook whose start action fails: the
    hooks [pre] before it start successfully and the start action [f] of
    hook [h], at position [k = length pre], returns the error [e].  Then
    [Start] on a fresh registry returns [e]; the start calls are those of
    [pre] followed by the one of hook [k], so no hook after [k] is started;
    [numStarted] is [k], the failing hook not counted; and a following
    [Stop] applies the stop actions of the hooks of [pre] only, from the
    last to the first: it leaves the world and returns the combined failures
    that applying them in that order gives, records one call for each, and
    leaves [numStarted] at 0. *)
Theorem Start_failure_at_hook_k l pre h post f ctx ctx' st lpre st1 w e :
  hooks l = pre ++ h :: post ->
  numStarted l = 0 ->
  Start {| hooks := pre; numStarted := 0 |} ctx st = (None, lpre, st1) ->
  OnStart h = Some f ->
  f ctx (world st1) = (w, Some e) ->
  let k := List.length pre in
  exists l' st2,
    Start l ctx st = (Some e, l', st2)
    /\ hooks l' = hooks l
    /\ numStarted l' = k
    /\ world st2 = w
    /\ calls st2 = calls st ++ startCalls ctx pre ++ [CallStart k ctx]
    /\ (forall j c, In (CallStart j c) (startCalls ctx pre ++ [CallStart k ctx]) -> j <= k)
    /\ exists l'' st3,
         Stop l' ctx' st2
         = (Returned (multierr.Combine (snd (stopsInReverse ctx' pre w))), l'', st3)
         /\ numStarted l'' = 0
         /\ world st3 = fst (stopsInReverse ctx' pre w)
         /\ calls st3 = calls st2 ++ stopCalls ctx' pre
         /\ (forall j c, In (CallStop j c) (stopCalls ctx' pre) -> j < k).
Proof.
  intros Hhooks Hn Hpre Hf Hfail k.
  unfold Start in Hpre. simpl in Hpre.
  destruct (startLoop pre 0 ctx 0 st) as [[r n1] st1'] eqn:Hloop.
  injection Hpre as -> _ ->.
  pose proof (startLoop_ok _ _ _ _ _ _ _ Hloop) as [Hn1 Hcalls].
  pose proof (startLoop_app pre (h :: post) _ _ _ _ _ _ Hloop) as Happ.
  simpl in Happ, Hn1. rewrite Hf, Hfail in Happ.
  exists {| hooks := hooks l; numStarted := k |},
         (record (CallStart k ctx) w st1).
  assert (HStart : Start l ctx st
                   = (Some e, {| hooks := hooks l; numStarted := k |},
                      record (CallStart k ctx) w st1)).
  { unfold Start. rewrite Hhooks at 1. rewrite Hn, Happ. subst n1. reflexivity. }
  repeat split; try assumption; try reflexivity.
  - simpl. rewrite Hcalls. unfold startCalls. now rewrite <- app_assoc.
  - intros j c Hin. apply in_app_or in Hin as [Hin | [Hin | []]].
    + unfold startCalls in Hin. apply in_map_iff in Hin as (i & Hi & Hin).
      injection Hi as <- _. apply indicesWhere_bound in Hin. unfold k. lia.
    + injection Hin as <- _. lia.
  - assert (Hle : numStarted {| hooks := hooks l; numStarted := k |}
                  <= List.length (hooks {| hooks := hooks l; numStarted := k |})).
    { simpl. rewrite Hhooks, length_app. unfold k. lia. }
    pose proof (Stop_refines {| hooks := hooks l; numStarted := k |} ctx'
                  (record (CallStart k ctx) w st1) Hle) as HStop.
    cbn [numStarted hooks world record] in HStop.
    assert (Hpre' : firstn k (hooks l) = pre)
      by (rewrite Hhooks; unfold k; apply firstn_length_app).
    rewrite Hpre' in HStop.
    eexists _, _. split; [exact HStop|]. cbn [numStarted world calls].
    repeat split.
    intros j c Hin. unfold stopCalls in Hin.
    apply in_map_iff in Hin as (i & Hi & Hin). injection Hi as <- _.
    apply in_rev, indicesWhere_bound in Hin. unfold k. lia.
Qed.

(** C2.  When every start action succeeds on a fresh registry, [Start]
    leaves [numStarted] at the number of hooks, and a following [Stop]
    applies the stop action of exactly the hooks that have one, from the
    last registered to the first: it leaves the world and returns the
    combined failures that applying them in that order gives, records one
    call for each, and brings [numStarted] down to 0, whatever the stop
    actions return. *)
Theorem Stop_reverses_successful_Start l ctx ctx' st l1 st1 :
  numStarted l = 0 ->
  Start l ctx st = (None, l1, st1) ->
  exists l2 st2,
    Stop l1 ctx' st1
    = (Returned (multierr.Combine (snd (stopsInReverse ctx' (hooks l) (world st1)))),
       l2, st2)
    /\ numStarted l1 = List.length (hooks l)
    /\ hooks l2 = hooks l
    /\ numStarted l2 = 0
    /\ world st2 = fst (stopsInReverse ctx' (hooks l) (world st1))
    /\ calls st2 = calls st1 ++ stopCalls ctx' (hooks l).
Proof.
  intros Hn HStart. unfold Start in HStart.
  destruct (startLoop (hooks l) 0 ctx (numStarted l) st) as [[r n1] st1'] eqn:Hloop.
  injection HStart as -> <- ->.
  apply startLoop_ok in Hloop as [Hn1 _]. rewrite Hn in Hn1. simpl in Hn1.
  assert (Hle : numStarted {| hooks := hooks l; numStarted := n1 |}
                <= List.length (hooks {| hooks := hooks l; numStarted := n1 |}))
    by (simpl; lia).
  pose proof (Stop_refines {| hooks := hooks l; numStarted := n1 |} ctx' st1 Hle) as HStop.
  cbn [numStarted hooks] in HStop. subst n1. rewrite firstn_all in HStop.
  eexists _, _. split; [exact HStop|]. cbn [numStarted hooks world calls].
  repeat split.
Qed.

(** Each turn of the stop loop lowers [numStarted] by one, whether the
    hook has no stop action, or its stop action succeeds, or fails. *)
Lemma stopLoop_step hs m ctx errs st h :
  nth_error hs m = Some h ->
  exists errs' st',
    stopLoop hs (S m) ctx errs st = stopLoop hs m ctx errs' st'.
Proof.
  intro Hm. simpl. rewrite Hm. destruct (OnStop h) as [f|]; [|eauto].
  destruct (f ctx (world st)) as [w [e|]]; eauto.
Qed.

(** C4.  After a call of [Stop] that returned, a second call returns
    [nil] and changes nothing: no action is called and [numStarted], which
    the first call left at 0, stays 0. *)
Theorem Stop_idempotent l ctx ctx' st r l1 st1 :
  Stop l ctx st = (Returned r, l1, st1) ->
  numStarted l1 = 0 /\ Stop l1 ctx' st1 = (Returned None, l1, st1).
Proof.
  unfold Stop. intro H.
  destruct (stopLoop (hooks l) (numStarted l) ctx [] st) as [[out n] st'] eqn:Hloop.
  destruct out as [errs|m]; [|discriminate].
  apply stopLoop_returned in Hloop as ->.
  injection H as _ <- <-. simpl. auto.
Qed.

End WithWorld.

(** The scenario of the spec: hook A starts, hook C has no start action,
    hook B fails to start, hook D is never reached.  The rollback stops C,
    whose stop action fails, then A: the world moves on by two steps. *)
Lemma Start_failure_at_hook_k_witness :
  exists l' st2,
    Start {| hooks := [Examples.hookA; Examples.hookC; Examples.hookB; Examples.hookD];
             numStarted := 0 |} Examples.ctxA Examples.st0
    = (Some (errorString "B: start failed"), l', st2)
    /\ numStarted l' = 2
    /\ world st2 = 2
    /\ calls st2 = [CallStart 0 Examples.ctxA; CallStart 2 Examples.ctxA]
    /\ exists l'' st3,
         Stop l' Examples.ctxB st2
         = (Returned (Some (errorString "C: stop failed")), l'', st3)
         /\ numStarted l'' = 0
         /\ world st3 = 4
         /\ calls st3 = calls st2 ++ [CallStop 1 Examples.ctxB; CallStop 0 Examples.ctxB].
Proof.
  destruct (Start_failure_at_hook_k
              {| hooks := [Examples.hookA; Examples.hookC; Examples.hookB; Examples.hookD];
                 numStarted := 0 |}
              [Examples.hookA; Examples.hookC] Examples.hookB [Examples.hookD]
              (Examples.failWith "B: start failed") Examples.ctxA Examples.ctxB
              Examples.st0
              {| hooks := [Examples.hookA; Examples.hookC]; numStarted := 2 |}
              {| world := 1; calls := [CallStart 0 Examples.ctxA] |}
              2 (errorString "B: start failed")
              eq_refl eq_refl eq_refl eq_refl eq_refl)
    as (l' & st2 & H1 & _ & H2 & Hw & H3 & _ & l'' & st3 & H4 & H5 & H6 & H7 & _).
  exists l', st2. repeat split; try assumption.
  exists l'', st3. repeat split; assumption.
Defined.

(** Hooks A, C and D have started; [Stop] stops C, whose stop action
    fails, then A, and D has no stop action. *)
Lemma Stop_reverses_successful_Start_witness :
  exists l2 st2,
    Stop {| hooks := [Examples.hookA; Examples.hookC; Examples.hookD]; numStarted := 3 |}
         Examples.ctxB
         {| world := 2; calls := [CallStart 0 Examples.ctxA; CallStart 2 Examples.ctxA] |}
    = (Returned (Some (errorString "C: stop failed")), l2, st2)
    /\ numStarted l2 = 0
    /\ world st2 = 4
    /\ calls st2 = [CallStart 0 Examples.ctxA; CallStart 2 Examples.ctxA]
                   ++ [CallStop 1 Examples.ctxB; CallStop 0 Examples.ctxB].
Proof.
  destruct (Stop_reverses_successful_Start
              {| hooks := [Examples.hookA; Examples.hookC; Examples.hookD]; numStarted := 0 |}
              Examples.ctxA Examples.ctxB Examples.st0
              {| hooks := [Examples.hookA; Examples.hookC; Examples.hookD]; numStarted := 3 |}
              {| world := 2; calls := [CallStart 0 Examples.ctxA; CallStart 2 Examples.ctxA] |}
              eq_refl eq_refl)
    as (l2 & st2 & H1 & _ & _ & H2 & H3 & H4).
  exists l2, st2. repeat split; assumption.
Defined.

Lemma Stop_idempotent_witness :
  Stop {| hooks := [Examples.hookA; Examples.hookC]; numStarted := 0 |} Examples.ctxA
       {| world := 2; calls := [CallStop 1 Examples.ctxB; CallStop 0 Examples.ctxB] |}
  = (Returned None,
     {| hooks := [Examples.hookA; Examples.hookC]; numStarted := 0 |},
     {| world := 2; calls := [CallStop 1 Examples.ctxB; CallStop 0 Examples.ctxB] |}).
Proof.
  exact (proj2 (Stop_idempotent
                  {| hooks := [Examples.hookA; Examples.hookC]; numStarted := 2 |}
                  Examples.ctxB Examples.ctxA Examples.st0
                  (Some (errorString "C: stop failed"))
                  {| hooks := [Examples.hookA; Examples.hookC]; numStarted := 0 |}
                  {| world := 2; calls := [CallStop 1 Examples.ctxB; CallStop 0 Examples.ctxB] |}
                  eq_refl)).
Defined.

End LifecycleFacts.

(** * Properties of multierr *)

Module MultierrFacts.

Import multierr.

(** Appending exposes the errors of both sides, left ones first. *)
Lemma Errors_Append (a b : option error) :
  Errors (Append a b) = Errors a ++ Errors b.
Proof.
  destruct a as [l|], b as [r|]; simpl; try reflexivity.
  - destruct r; simpl.
    + destruct l; reflexivity.
    + unfold fromSlice. simpl.
      rewrite Bool.orb_true_r. simpl. unfold flatten. simpl.
      now rewrite app_nil_r.
    + destruct l; reflexivity.
  - now rewrite app_nil_r.
Qed.

Lemma Append_not_nil (a b : option error) e :
  a = Some e -> Append a b <> None.
Proof.
  intros ->. destruct b as [r|]; simpl; [|discriminate].
  destruct r; simpl; destruct e; discriminate.
Qed.

Lemma Combine_nil : Combine [] = None.
Proof. reflexivity. Qed.

End MultierrFacts.

(** * Properties of package fx *)

Module FxFacts.

Import fx.

Lemma itoa_inj (m n : nat) : itoa m = itoa n -> m = n.
Proof.
  unfold itoa. intro H.
  apply (f_equal NilEmpty.uint_of_string) in H.
  rewrite !NilEmpty.usu in H. injection H as H.
  apply (f_equal Nat.of_uint) in H. now rewrite !Unsigned.of_to in H.
Qed.

Section WithWorld.
Context {World : Type} (dig : Dig World).

Local Abbreviation App := (App dig).

Implicit Types (app : App) (st : State World) (ctx : Context)
               (s : App * State World).

(** *** Record bookkeeping *)

Lemma setLifecycle_same app :
  setLifecycle app (lifecycle app) = app.
Proof. now destruct app. Qed.

Lemma lifecycle_eta (l : lifecycle.Lifecycle World) :
  {| lifecycle.hooks := lifecycle.hooks l;
     lifecycle.numStarted := lifecycle.numStarted l |} = l.
Proof. now destruct l. Qed.

(** *** Start with rollback *)

Lemma withTimeout_PhaseFirst {S : Type} ctx
    (f : Context -> S -> Outcome (option error) * S)
    (within : nat -> Context -> S -> bool * S) (x : S) :
  withTimeout PhaseFirst ctx f within x = f ctx x.
Proof.
  unfold withTimeout. destruct (f ctx x) as [[r|m] x']; reflexivity.
Qed.

(** C3.  On an application without construction error, when
    [lifecycle.Start] fails with [e1], [start] runs [lifecycle.Stop] on the
    registry [Start] left behind, under the same context.  When that
    rollback returns [nil], [start] returns [e1] alone; when it returns
    [stopErr], [start] returns [multierr.Append(e1, stopErr)], an error
    whose underlying errors are those of [e1] followed by those of
    [stopErr].  The public [Start] returns the same whenever the phase
    settles before the deadline.  On a fresh registry the rollback always
    returns. *)
Theorem start_rollback app ctx st e1 l1 st1 :
  err app = None ->
  lifecycle.Start (lifecycle app) ctx st = (Some e1, l1, st1) ->
  (forall r l2 st2,
      lifecycle.Stop l1 ctx st1 = (Returned r, l2, st2) ->
      start ctx (app, st)
      = (Returned match r with
                  | Some stopErr => multierr.Append (Some e1) (Some stopErr)
                  | None => Some e1
                  end,
         (setLifecycle app l2, st2)))
  /\ Start PhaseFirst ctx (app, st) = start ctx (app, st)
  /\ (forall stopErr,
        multierr.Errors (multierr.Append (Some e1) (Some stopErr))
        = multierr.Errors (Some e1) ++ multierr.Errors (Some stopErr))
  /\ (lifecycle.numStarted (lifecycle app) = 0 ->
      exists r l2 st2, lifecycle.Stop l1 ctx st1 = (Returned r, l2, st2)).
Proof.
  intros Herr HStart. split; [|split; [|split]].
  - intros r l2 st2 HStop. unfold start. rewrite Herr, HStart, HStop.
    now destruct r.
  - apply withTimeout_PhaseFirst.
  - intro stopErr. apply MultierrFacts.Errors_Append.
  - intro Hn.
    assert (Hle : lifecycle.numStarted l1 <= List.length (lifecycle.hooks l1)).
    { unfold lifecycle.Start in HStart.
      destruct (lifecycle.startLoop _ _ _ _ _) as [[r n] st'] eqn:Hloop.
      injection HStart as _ <- _. simpl.
      apply LifecycleFacts.startLoop_numStarted in Hloop.
      now rewrite Hn in Hloop. }
    destruct (LifecycleFacts.Stop_returns l1 ctx st1 Hle) as (r & st2 & HStop & _).
    eauto.
Qed.

(** *** Broadcast *)

Lemma broadcastLoop_spec signal ds : forall unsent,
  broadcastLoop signal ds unsent
  = (map (deliver signal) ds, unsent + pendingSlots ds).
Proof.
  induction ds as [|[p|] ds IH]; intro unsent; simpl.
  - now rewrite Nat.add_0_r.
  - rewrite IH. unfold pendingSlots. simpl. now rewrite Nat.add_succ_r.
  - now rewrite IH.
Qed.

Lemma slots_partition (ds : list Chan) :
  pendingSlots ds + freeSlots ds = List.length ds.
Proof.
  unfold pendingSlots, freeSlots.
  induction ds as [|[p|] ds IH]; simpl; lia.
Qed.

(** C6.  With [N] listener slots of which [M] hold an undelivered
    signal, [broadcastSignal] (which is all [Shutdown] does) keeps all [N]
    slots, puts the signal into each of the [N - M] free ones, leaves the
    [M] pending ones as they are, so that every slot holds a signal
    afterwards, and returns [nil] exactly when [M = 0]; otherwise it
    returns the error that names [M] out of [N] channels. *)
Theorem broadcastSignal_report signal app :
  let N := List.length (dones app) in
  let M := pendingSlots (dones app) in
  let r := fst (broadcastSignal signal app) in
  let app' := snd (broadcastSignal signal app) in
  List.length (dones app') = N
  /\ (forall i, nth_error (dones app) i = Some None ->
                nth_error (dones app') i = Some (Some signal))
  /\ (forall i p, nth_error (dones app) i = Some (Some p) ->
                  nth_error (dones app') i = Some (Some p))
  /\ freeSlots (dones app) = N - M
  /\ pendingSlots (dones app') = N
  /\ (r = None <-> M = 0)
  /\ (M <> 0 -> r = Some (broadcastError signal M N))
  /\ (forall opts, Shutdown opts app = broadcastSignal SIGTERM app).
Proof.
  unfold Shutdown, broadcastSignal. rewrite broadcastLoop_spec. simpl.
  repeat split.
  - apply length_map.
  - intros i H. rewrite nth_error_map, H. reflexivity.
  - intros i p H. rewrite nth_error_map, H. reflexivity.
  - pose proof (slots_partition (dones app)). lia.
  - unfold pendingSlots. generalize (dones app) as ds.
    induction ds as [|[p|] ds IH]; simpl; auto.
  - destruct (pendingSlots (dones app)); simpl; [reflexivity | discriminate].
  - intros ->. reflexivity.
  - intro HM. destruct (pendingSlots (dones app)); [contradiction | reflexivity].
Qed.

(** The scenario of the spec: three listeners, one with a pending signal. *)
Example broadcast_one_of_three app :
  dones app = [None; Some SIGINT; None] ->
  broadcastSignal SIGTERM app
  = (Some (errorString "failed to send terminated signal to 1 out of 3 channels"),
     setDones app [Some SIGTERM; Some SIGINT; Some SIGTERM]).
Proof. intro H. unfold broadcastSignal. rewrite H. reflexivity. Qed.

(** C10.  [Shutdown] does not look at its options: whatever the option
    list, it offers [SIGTERM] to every listener slot.  With [N] slots of
    which [M] hold an undelivered signal, every free slot receives [SIGTERM],
    every pending slot keeps its signal, nothing else of the application
    changes, and the result is [nil] when [M = 0] and the error naming [M]
    out of [N] channels otherwise.  Two calls on the same slots, with
    different option lists, return the same result and leave the same
    slots. *)
Theorem Shutdown_ignores_options (opts1 opts2 : list (ShutdownOption dig)) app1 app2 :
  dones app1 = dones app2 ->
  let N := List.length (dones app1) in
  let M := pendingSlots (dones app1) in
  fst (Shutdown opts1 app1)
  = (if (M =? 0)%nat then None else Some (broadcastError SIGTERM M N))
  /\ snd (Shutdown opts1 app1) = setDones app1 (map (deliver SIGTERM) (dones app1))
  /\ (forall i, nth_error (dones app1) i = Some None ->
                nth_error (dones (snd (Shutdown opts1 app1))) i = Some (Some SIGTERM))
  /\ (forall i p, nth_error (dones app1) i = Some (Some p) ->
                  nth_error (dones (snd (Shutdown opts1 app1))) i = Some (Some p))
  /\ fst (Shutdown opts1 app1) = fst (Shutdown opts2 app2)
  /\ dones (snd (Shutdown opts1 app1)) = dones (snd (Shutdown opts2 app2)).
Proof.
  intros Hd N M. unfold Shutdown, broadcastSignal.
  rewrite !broadcastLoop_spec, <- Hd. cbn [fst snd dones setDones Nat.add]. fold M N.
  split; [reflexivity|]. split; [reflexivity|].
  split; [intros i H; now rewrite nth_error_map, H|].
  split; [intros i p H; now rewrite nth_error_map, H|].
  split; reflexivity.
Qed.


(** *** Construction *)

(** Induction on options that reaches inside [optionGroup]. *)
Lemma Option_nested_ind (P : Option World -> Prop) :
  (forall errs, P (ErrorOption errs)) ->
  (forall cs, P (provideOption cs)) ->
  (forall fs, P (invokeOption fs)) ->
  (forall og, Forall P og -> P (optionGroup og)) ->
  (forall v, P (StartTimeout v)) ->
  (forall v, P (StopTimeout v)) ->
  P Logger ->
  (forall hs, P (errorHookOption hs)) ->
  forall o, P o.
Proof.
  intros HE HP HI HG HS HT HL HH.
  fix IH 1.
  intros [errs|cs|fs|og|v|v| |hs];
    [apply HE | apply HP | apply HI | | apply HS | apply HT | exact HL | apply HH].
  apply HG. induction og as [|o og IHog]; constructor; [apply IH | exact IHog].
Qed.

Lemma applyOptions_preserves (Q : App -> Prop) (opts : list (Option World)) :
  Forall (fun o => forall app, Q app -> Q (apply o app)) opts ->
  forall app, Q app -> Q (applyOptions opts app).
Proof.
  unfold applyOptions. induction 1 as [|o opts Ho _ IH]; intros app HQ; simpl; auto.
Qed.

Lemma apply_numStarted (o : Option World) : forall app,
  lifecycle.numStarted (lifecycle app) = 0 ->
  lifecycle.numStarted (lifecycle (apply o app)) = 0.
Proof.
  induction o using Option_nested_ind; intros app Hn; simpl; auto.
  now apply (applyOptions_preserves
               (fun a => lifecycle.numStarted (lifecycle a) = 0)).
Qed.

Lemma containerProvide_fields app target opts :
  lifecycle (containerProvide app target opts) = lifecycle app
  /\ errorHooks (containerProvide app target opts) = errorHooks app
  /\ invokes (containerProvide app target opts) = invokes app.
Proof.
  unfold containerProvide.
  destruct (dig_Provide dig (container app) target opts) as [c [e|]]; auto.
Qed.

Lemma provide_fields app constructor :
  lifecycle (provide app constructor) = lifecycle app
  /\ errorHooks (provide app constructor) = errorHooks app
  /\ invokes (provide app constructor) = invokes app.
Proof.
  unfold provide. destruct (err app); [auto|].
  destruct constructor as [r|name group target|name [|]|r];
    try apply containerProvide_fields; auto.
  destruct ((0 <? String.length group)%nat && (0 <? String.length name)%nat); [auto|].
  destruct (0 <? String.length name)%nat; [apply containerProvide_fields|].
  destruct (0 <? String.length group)%nat; apply containerProvide_fields.
Qed.

Lemma fold_provide_fields cs : forall app,
  lifecycle (fold_left provide cs app) = lifecycle app
  /\ errorHooks (fold_left provide cs app) = errorHooks app
  /\ invokes (fold_left provide cs app) = invokes app.
Proof.
  induction cs as [|c cs IH]; intro app; simpl; [auto|].
  destruct (IH (provide app c)) as (-> & -> & ->). apply provide_fields.
Qed.

Lemma provideAll_fields app :
  lifecycle (provideAll app) = lifecycle app
  /\ errorHooks (provideAll app) = errorHooks app
  /\ invokes (provideAll app) = invokes app.
Proof.
  unfold provideAll.
  repeat match goal with
         | |- context [provide ?a ?c] =>
             let H := fresh in
             destruct (provide_fields a c) as (-> & -> & ->)
         end.
  apply fold_provide_fields.
Qed.

Lemma appendAll_numStarted hs : forall l : lifecycle.Lifecycle World,
  lifecycle.numStarted (appendAll l hs) = lifecycle.numStarted l.
Proof.
  unfold appendAll. induction hs as [|h hs IH]; intro l; simpl; [reflexivity|].
  now rewrite IH.
Qed.

(** Invocations register hooks; they start none, call no observer and
    leave the error and the observers alone. *)
Lemma executeInvokesFrom_fields fns : forall app st e app' st',
  executeInvokesFrom fns app st = (e, app', st') ->
  lifecycle.numStarted (lifecycle app') = lifecycle.numStarted (lifecycle app)
  /\ calls st' = calls st
  /\ errorHooks app' = errorHooks app
  /\ err app' = err app.
Proof.
  induction fns as [|fn fns IH]; intros app st e app' st' H; simpl in H.
  - injection H as _ <- <-. auto.
  - destruct fn as [r|name group target|name b|r]; simpl in H.
    + injection H as _ <- <-. auto.
    + destruct (ir_err _ _) eqn:E.
      * injection H as _ <- <-. simpl. now rewrite appendAll_numStarted.
      * apply IH in H as (-> & -> & -> & ->). simpl. now rewrite appendAll_numStarted.
    + destruct (ir_err _ _) eqn:E.
      * injection H as _ <- <-. simpl. now rewrite appendAll_numStarted.
      * apply IH in H as (-> & -> & -> & ->). simpl. now rewrite appendAll_numStarted.
    + destruct (ir_err _ _) eqn:E.
      * injection H as _ <- <-. simpl. now rewrite appendAll_numStarted.
      * apply IH in H as (-> & -> & -> & ->). simpl. now rewrite appendAll_numStarted.
Qed.

Lemma New_numStarted opts st :
  lifecycle.numStarted (lifecycle (fst (New dig opts st))) = 0.
Proof.
  assert (H0 : lifecycle.numStarted
                 (lifecycle (provideAll (applyOptions opts (initialApp dig)))) = 0).
  { destruct (provideAll_fields (applyOptions opts (initialApp dig))) as (-> & _).
    apply (applyOptions_preserves (fun a => lifecycle.numStarted (lifecycle a) = 0));
      [|reflexivity].
    apply Forall_forall. intros o _. apply apply_numStarted. }
  unfold New. destruct (err (provideAll _)); [exact H0|].
  destruct (executeInvokes _ st) as [[e app'] st'] eqn:E.
  apply executeInvokesFrom_fields in E as (Hn & _).
  destruct e; simpl; congruence.
Qed.

(** *** Histories *)

Lemma start_err ctx s out s' :
  start ctx s = (out, s') -> err (fst s') = err (fst s).
Proof.
  destruct s as [app st]. unfold start.
  destruct (err app) eqn:E; [now intros [= _ <-]|].
  destruct (lifecycle.Start _ ctx st) as [[[e1|] l1] st1].
  - destruct (lifecycle.Stop l1 ctx st1) as [[o l2] st2]. now intros [= _ <-].
  - now intros [= _ <-].
Qed.

Lemma Stop_numStarted_zero (l : lifecycle.Lifecycle World) ctx st :
  lifecycle.numStarted l = 0 ->
  lifecycle.Stop l ctx st = (Returned None, l, st).
Proof.
  intro Hn. unfold lifecycle.Stop. rewrite Hn. simpl.
  rewrite <- Hn. now rewrite lifecycle_eta.
Qed.

Lemma Stop_returned_zero (l l' : lifecycle.Lifecycle World) ctx st r st' :
  lifecycle.Stop l ctx st = (Returned r, l', st') -> lifecycle.numStarted l' = 0.
Proof.
  unfold lifecycle.Stop.
  destruct (lifecycle.stopLoop _ _ _ _ _) as [[[errs|m] n] st''] eqn:E; [|discriminate].
  apply LifecycleFacts.stopLoop_returned in E as ->. now intros [= _ <- _].
Qed.

(** A phase cut short by its deadline has touched nothing but the world,
    the call record and [numStarted]. *)
Lemma startWithin_fields turns ctx s :
  let s' := snd (startWithin turns ctx s) in
  err (fst s') = err (fst s)
  /\ startTimeout (fst s') = startTimeout (fst s)
  /\ stopTimeout (fst s') = stopTimeout (fst s)
  /\ errorHooks (fst s') = errorHooks (fst s)
  /\ provides (fst s') = provides (fst s)
  /\ invokes (fst s') = invokes (fst s)
  /\ dones (fst s') = dones (fst s)
  /\ lifecycle.hooks (lifecycle (fst s')) = lifecycle.hooks (lifecycle (fst s)).
Proof.
  destruct s as [app st]. unfold startWithin.
  destruct (err app) eqn:E; [simpl; now auto 10|].
  destruct (lifecycle.startLoopWithin _ _ _ _ _ _) as [[[[[e1|]|] rest] n1] st1];
    try (simpl; now auto 10).
  destruct (lifecycle.stopLoopWithin _ _ _ _ _) as [[p n2] st2]. simpl. now auto 10.
Qed.

Lemma lifecycleStopWithin_fields turns ctx s :
  let s' := snd (lifecycleStopWithin turns ctx s) in
  err (fst s') = err (fst s)
  /\ startTimeout (fst s') = startTimeout (fst s)
  /\ stopTimeout (fst s') = stopTimeout (fst s)
  /\ errorHooks (fst s') = errorHooks (fst s)
  /\ provides (fst s') = provides (fst s)
  /\ invokes (fst s') = invokes (fst s)
  /\ dones (fst s') = dones (fst s)
  /\ lifecycle.hooks (lifecycle (fst s')) = lifecycle.hooks (lifecycle (fst s)).
Proof.
  destruct s as [app st]. unfold lifecycleStopWithin.
  destruct (lifecycle.stopLoopWithin _ _ _ _ _) as [[p n2] st2]. simpl. now auto 10.
Qed.

Lemma startWithin_err turns ctx app st e :
  err app = Some e -> startWithin turns ctx (app, st) = (false, (app, st)).
Proof. intro He. unfold startWithin. now rewrite He. Qed.

Lemma lifecycleStopWithin_zero turns ctx app st :
  lifecycle.numStarted (lifecycle app) = 0 ->
  lifecycleStopWithin turns ctx (app, st) = (false, (app, st)).
Proof.
  destruct app as [e c [hs n] ps fs t1 t2 ehs ds]. simpl. intros ->. reflexivity.
Qed.

(** Given turns enough to finish, a phase cut short is where the whole
    phase ends: [startWithin] and [lifecycleStopWithin] are [start] and
    [lifecycle.Stop], stopped early. *)
Lemma startWithin_enough turns ctx app st :
  lifecycle.numStarted (lifecycle app) + 2 * List.length (lifecycle.hooks (lifecycle app))
  <= turns ->
  startWithin turns ctx (app, st)
  = (match fst (start ctx (app, st)) with
     | Panicked _ => true
     | Returned _ => false
     end, snd (start ctx (app, st))).
Proof.
  intro Hle. unfold startWithin, start, lifecycle.Start, lifecycle.Stop.
  destruct (err app); [reflexivity|].
  destruct (LifecycleFacts.startLoopWithin_enough
              (lifecycle.hooks (lifecycle app)) ctx 0
              (lifecycle.numStarted (lifecycle app)) st turns) as (used & Hu & -> & Hb);
    [lia|].
  destruct (lifecycle.startLoop _ _ _ _ _) as [[[e1|] n1] st1]; [|reflexivity].
  cbn [fst snd lifecycle.hooks lifecycle.numStarted] in *.
  rewrite (LifecycleFacts.stopLoopWithin_enough _ ctx n1 (turns - used) [] st1) by lia.
  destruct (lifecycle.stopLoop _ _ _ _ _) as [[[errs|m] n2] st2]; cbn [fst snd];
    [|reflexivity].
  now destruct (multierr.Combine errs).
Qed.

Lemma lifecycleStopWithin_enough turns ctx app st :
  lifecycle.numStarted (lifecycle app) <= turns ->
  lifecycleStopWithin turns ctx (app, st)
  = (match fst (lifecycleStop ctx (app, st)) with
     | Panicked _ => true
     | Returned _ => false
     end, snd (lifecycleStop ctx (app, st))).
Proof.
  intro Hle. unfold lifecycleStopWithin, lifecycleStop, lifecycle.Stop.
  rewrite (LifecycleFacts.stopLoopWithin_enough _ ctx _ turns [] st) by exact Hle.
  now destruct (lifecycle.stopLoop _ _ _ _ _) as [[[errs|m] n2] st2].
Qed.

(** Only an application without construction error ever has started
    hooks. *)
Lemma reachable_numStarted s :
  reachable s -> err (fst s) <> None ->
  lifecycle.numStarted (lifecycle (fst s)) = 0.
Proof.
  induction 1 as [opts st | s s' Hs IH Hstep]; intro Herr.
  - apply New_numStarted.
  - destruct Hstep as [race ctx s r s' H | race ctx s r s' H | app st
                      | signal app st | i app st sig app' H | app st hook cn].
    + unfold Start, withTimeout in H. destruct race as [|ce turns].
      * destruct (start ctx s) as [out s''] eqn:E. injection H as _ <-.
        pose proof (start_err _ _ _ _ E) as He.
        destruct s as [app st]. unfold start in E.
        destruct (err app) eqn:Ea; [injection E as _ <-; apply IH; simpl; congruence|].
        simpl in He. congruence.
      * destruct (startWithin_fields turns ctx s) as (He & _).
        destruct (startWithin turns ctx s) as [p s''] eqn:E. injection H as _ <-.
        cbn [snd] in He. destruct s as [app st].
        destruct (err app) as [e0|] eqn:Ea; [|simpl in He; congruence].
        rewrite (startWithin_err _ _ _ _ _ Ea) in E. injection E as _ <-.
        apply IH. simpl. congruence.
    + unfold Stop, withTimeout in H. destruct race as [|ce turns].
      * unfold lifecycleStop in H. destruct s as [app st].
        destruct (lifecycle.Stop (lifecycle app) ctx st) as [[[r'|m] l] st'] eqn:E;
          [|discriminate].
        injection H as _ <-. simpl. eapply Stop_returned_zero; eassumption.
      * destruct (lifecycleStopWithin_fields turns ctx s) as (He & _).
        destruct (lifecycleStopWithin turns ctx s) as [p s''] eqn:E. injection H as _ <-.
        cbn [snd] in He. destruct s as [app st].
        assert (Hn : lifecycle.numStarted (lifecycle app) = 0)
          by (apply IH; simpl in *; congruence).
        rewrite (lifecycleStopWithin_zero _ _ _ _ Hn) in E. injection E as _ <-.
        exact Hn.
    + apply IH, Herr.
    + unfold broadcastSignal in *.
      destruct (broadcastLoop signal (dones app) 0). apply IH, Herr.
    + unfold receive in H. destruct (nth_error (dones app) i) as [[sg|]|]; try discriminate.
      injection H as _ <-. apply IH, Herr.
    + simpl. apply IH, Herr.
Qed.

(** C5.  On every application that [New] returned, at any later point
    of its history: when the construction error is set, [start] returns it
    at once, and neither [Start] nor [Stop] calls a hook action or changes
    anything (whichever side of the deadline race wins); [Start] returns
    the construction error and [Stop] returns [nil] when the phase settles
    first. *)
Theorem construction_error_blocks_Start_Stop s ctx e :
  reachable s ->
  err (fst s) = Some e ->
  start ctx s = (Returned (Some e), s)
  /\ Start PhaseFirst ctx s = (Returned (Some e), s)
  /\ (forall race, snd (Start race ctx s) = s)
  /\ Stop PhaseFirst ctx s = (Returned None, s)
  /\ (forall race, snd (Stop race ctx s) = s).
Proof.
  intros Hr He.
  assert (Hn : lifecycle.numStarted (lifecycle (fst s)) = 0)
    by (apply reachable_numStarted; [assumption | congruence]).
  destruct s as [app st]. simpl in He, Hn.
  assert (Hs : start ctx (app, st) = (Returned (Some e), (app, st)))
    by (unfold start; now rewrite He).
  assert (Hl : lifecycleStop ctx (app, st) = (Returned None, (app, st))).
  { unfold lifecycleStop. rewrite (Stop_numStarted_zero _ ctx st Hn).
    now rewrite setLifecycle_same. }
  unfold Start, Stop, withTimeout. rewrite Hs, Hl.
  repeat split; intros [|ce turns]; try reflexivity.
  - now rewrite (startWithin_err _ _ _ _ _ He).
  - now rewrite (lifecycleStopWithin_zero _ _ _ _ Hn).
Qed.

(** *** Rollback context *)

(** C7, as the code has it.  On an application without construction
    error whose registry is fresh, when [lifecycle.Start] fails under the
    context [ctx], [start] returns an error and the rollback applies the
    stop actions of the hooks that started, from the last to the first, to
    that same [ctx]: the world it leaves is the one these actions give when
    called with [ctx], and each call is recorded with [ctx].  Under [run],
    [ctx] is the context built from the start timeout, and when the phase
    settles before the deadline the process ends with the fatal start error
    in that state. *)
Theorem rollback_runs_under_start_context app ctx st e1 l1 st1 :
  err app = None ->
  lifecycle.numStarted (lifecycle app) = 0 ->
  lifecycle.Start (lifecycle app) ctx st = (Some e1, l1, st1) ->
  exists r app' st2,
    start ctx (app, st) = (Returned (Some r), (app', st2))
    /\ world st2
       = fst (lifecycle.stopsInReverse ctx
                (firstn (lifecycle.numStarted l1) (lifecycle.hooks (lifecycle app)))
                (world st1))
    /\ calls st2
       = calls st1 ++ lifecycle.stopCalls ctx
                        (firstn (lifecycle.numStarted l1) (lifecycle.hooks (lifecycle app)))
    /\ (forall raceStop done,
          ctx = WithTimeout Background (startTimeout app) ->
          exists e,
            run PhaseFirst raceStop done (app, st)
            = (Fatal "ERROR\t\tFailed to start: " e, (app', st2))).
Proof.
  intros Herr Hn HStart.
  assert (Hh : lifecycle.hooks l1 = lifecycle.hooks (lifecycle app)).
  { unfold lifecycle.Start in HStart.
    destruct (lifecycle.startLoop _ _ _ _ _) as [[r n] st'].
    now injection HStart as _ <- _. }
  assert (Hle : lifecycle.numStarted l1 <= List.length (lifecycle.hooks l1)).
  { unfold lifecycle.Start in HStart.
    destruct (lifecycle.startLoop _ _ _ _ _) as [[r n] st'] eqn:Hloop.
    injection HStart as _ <- _. simpl.
    apply LifecycleFacts.startLoop_numStarted in Hloop.
    now rewrite Hn in Hloop. }
  pose proof (LifecycleFacts.Stop_refines l1 ctx st1 Hle) as HStop.
  set (failures := snd (lifecycle.stopsInReverse ctx
                          (firstn (lifecycle.numStarted l1) (lifecycle.hooks l1))
                          (world st1))) in HStop.
  set (st2 := {| world := fst (lifecycle.stopsInReverse ctx
                                 (firstn (lifecycle.numStarted l1) (lifecycle.hooks l1))
                                 (world st1));
                 calls := calls st1 ++ lifecycle.stopCalls ctx
                                         (firstn (lifecycle.numStarted l1)
                                                 (lifecycle.hooks l1)) |}) in HStop.
  assert (Hs : exists e, start ctx (app, st)
                         = (Returned (Some e),
                            (setLifecycle app {| lifecycle.hooks := lifecycle.hooks l1;
                                                 lifecycle.numStarted := 0 |}, st2))).
  { unfold start. rewrite Herr, HStart, HStop.
    destruct (multierr.Combine failures) as [stopErr|]; [|eauto].
    destruct (multierr.Append (Some e1) (Some stopErr)) as [e|] eqn:E; [eauto|].
    now apply (MultierrFacts.Append_not_nil (Some e1) (Some stopErr) e1) in E. }
  destruct Hs as (e & Hs).
  exists e, (setLifecycle app {| lifecycle.hooks := lifecycle.hooks l1;
                                 lifecycle.numStarted := 0 |}), st2.
  split; [exact Hs|].
  split; [subst st2; cbn [world]; now rewrite Hh|].
  split; [subst st2; cbn [calls]; now rewrite Hh|].
  intros raceStop done ->.
  unfold run, Start, withTimeout. cbn [fst]. rewrite Hs. eauto.
Qed.

(** *** Error observers *)

Lemma handleErrorFrom_calls ehl e : forall i st,
  calls (handleErrorFrom i ehl e st)
  = calls st ++ map (fun j => CallHandleError j e) (seq i (List.length ehl)).
Proof.
  induction ehl as [|eh ehl IH]; intros i st; simpl.
  - now rewrite app_nil_r.
  - rewrite IH. simpl. now rewrite <- app_assoc.
Qed.

Lemma handleErrorFrom_world ehl e : forall i st,
  world (handleErrorFrom i ehl e st)
  = fold_left (fun w eh => HandleError eh e w) ehl (world st).
Proof.
  induction ehl as [|eh ehl IH]; intros i st; simpl; [reflexivity|].
  now rewrite IH.
Qed.

Lemma handlerCalls_app (cs1 cs2 : list Call) :
  handlerCalls (cs1 ++ cs2) = handlerCalls cs1 ++ handlerCalls cs2.
Proof. apply filter_app. Qed.

Lemma startLoop_handlerCalls hs : forall i ctx n st r n' st',
  lifecycle.startLoop hs i ctx n st = (r, n', st') ->
  handlerCalls (calls st') = handlerCalls (calls st).
Proof.
  induction hs as [|h hs IH]; intros i ctx n st r n' st' H; simpl in H.
  - now injection H as _ _ <-.
  - destruct (lifecycle.OnStart h) as [f|]; [|eauto].
    destruct (f ctx (world st)) as [w [e|]].
    + injection H as _ _ <-. simpl. rewrite handlerCalls_app. simpl. apply app_nil_r.
    + apply IH in H. rewrite H. simpl. rewrite handlerCalls_app. simpl. apply app_nil_r.
Qed.

Lemma stopLoop_handlerCalls hs : forall n ctx errs st out n' st',
  lifecycle.stopLoop hs n ctx errs st = (out, n', st') ->
  handlerCalls (calls st') = handlerCalls (calls st).
Proof.
  induction n as [|m IH]; intros ctx errs st out n' st' H; simpl in H.
  - now injection H as _ _ <-.
  - destruct (nth_error hs m) as [h|]; [|now injection H as _ _ <-].
    destruct (lifecycle.OnStop h) as [f|]; [|eauto].
    destruct (f ctx (world st)) as [w [e|]];
      apply IH in H; rewrite H; simpl; rewrite handlerCalls_app; simpl; apply app_nil_r.
Qed.

Lemma start_handlerCalls ctx s :
  handlerCalls (calls (snd (snd (start ctx s)))) = handlerCalls (calls (snd s)).
Proof.
  destruct s as [app st]. unfold start. destruct (err app); [reflexivity|].
  unfold lifecycle.Start, lifecycle.Stop.
  destruct (lifecycle.startLoop _ _ _ _ _) as [[[e1|] n1] st1] eqn:E1; simpl.
  - destruct (lifecycle.stopLoop _ _ _ _ _) as [[out n2] st2] eqn:E2; simpl.
    apply stopLoop_handlerCalls in E2. apply startLoop_handlerCalls in E1. congruence.
  - now apply startLoop_handlerCalls in E1.
Qed.

(** C8, as the code has it.  With [app] the application after options
    and provides:
    - when [app] has no error and an invocation fails with [e], [New]
      records [e] and calls every registered observer once, in registration
      order, with [e], wrapped with the graph when the container can draw
      it; nothing else is called, and the world is the one the observers,
      applied in that order to the world the invocations left, give;
    - when options or provides left an error, [New] returns [app] and
      calls no observer;
    - [start] calls no observer, whatever it returns. *)
Theorem observers_run_on_invoke_failure_only opts st :
  let app := provideAll (applyOptions opts (initialApp dig)) in
  (forall e app' st',
      err app = None ->
      executeInvokes app st = (Some e, app', st') ->
      let herr := if dig_CanVisualizeError dig e
                  then errorWithGraph (dig_Visualize dig (container app') (Some e)) e
                  else e in
      Err (fst (New dig opts st)) = Some e
      /\ errorHooks (fst (New dig opts st)) = errorHooks (applyOptions opts (initialApp dig))
      /\ calls (snd (New dig opts st))
         = calls st ++ map (fun i => CallHandleError i herr)
                           (seq 0 (List.length (errorHooks (applyOptions opts (initialApp dig)))))
      /\ world (snd (New dig opts st))
         = fold_left (fun w eh => HandleError eh herr w)
                     (errorHooks (applyOptions opts (initialApp dig))) (world st'))
  /\ (forall e, err app = Some e -> New dig opts st = (app, st))
  /\ (forall ctx s,
        handlerCalls (calls (snd (snd (start ctx s)))) = handlerCalls (calls (snd s))).
Proof.
  intro app. split; [|split].
  - intros e app' st' Herr HI herr. unfold New. fold app. rewrite Herr, HI.
    apply executeInvokesFrom_fields in HI as (_ & Hc & Hh & _).
    destruct (provideAll_fields (applyOptions opts (initialApp dig))) as (_ & Hh' & _).
    fold app in Hh'. cbn [fst snd].
    unfold errorHandlerList_HandleError.
    rewrite handleErrorFrom_calls, handleErrorFrom_world.
    unfold Err. simpl. rewrite Hh, Hh', Hc. auto.
  - intros e Herr. unfold New. fold app. now rewrite Herr.
  - apply start_handlerCalls.
Qed.

(** *** The construction error *)

Lemma provide_err app constructor e :
  err app = Some e -> provide app constructor = app.
Proof. intro He. unfold provide. now rewrite He. Qed.

Lemma fold_provide_err cs : forall app e,
  err app = Some e -> fold_left provide cs app = app.
Proof.
  induction cs as [|c cs IH]; intros app e He; simpl; [reflexivity|].
  rewrite (provide_err _ c _ He). eauto.
Qed.

Lemma provideAll_err app e : err app = Some e -> provideAll app = app.
Proof.
  intro He. unfold provideAll. rewrite (fold_provide_err _ _ _ He).
  now rewrite !(provide_err _ _ _ He).
Qed.

Lemma apply_Errors_prefix (o : Option World) : forall app,
  exists more,
    multierr.Errors (err (apply o app)) = multierr.Errors (err app) ++ more.
Proof.
  induction o as [errs|cs|fs|og IH|v|v| |hs] using Option_nested_ind; intro app;
    try (exists []; simpl; now rewrite app_nil_r).
  - exists (multierr.Errors (multierr.Combine errs)). simpl.
    apply MultierrFacts.Errors_Append.
  - simpl. fold (applyOptions og app).
    apply (applyOptions_preserves
             (fun a => exists more,
                  multierr.Errors (err a) = multierr.Errors (err app) ++ more));
      [|exists []; now rewrite app_nil_r].
    eapply Forall_impl; [|exact IH]. intros o Ho a (more & Hm).
    destruct (Ho a) as (more' & Hm'). exists (more ++ more').
    now rewrite Hm', Hm, app_assoc.
Qed.

Lemma apply_err_sticky (o : Option World) : forall app,
  err app <> None -> err (apply o app) <> None.
Proof.
  induction o as [errs|cs|fs|og IH|v|v| |hs] using Option_nested_ind; intros app He;
    try exact He.
  - simpl. destruct (err app) as [e|] eqn:E; [|contradiction].
    now apply (MultierrFacts.Append_not_nil _ _ e).
  - simpl. fold (applyOptions og app).
    apply (applyOptions_preserves (fun a => err a <> None)); [|exact He].
    exact IH.
Qed.

(** C9, as the code has it.
    - A provide does nothing once the error is set, so of all provides at
      most the first failing one sets it.
    - Invocations run only when options and provides left no error; an
      error set before them is what [New] returns.
    - An [Error] option appends its errors to the recorded one
      ([multierr.Append]); any option keeps the recorded errors as the
      leading part of the new ones and never clears a set error. *)
Theorem construction_error_first_wins_except_Error_options :
  (forall app constructor e, err app = Some e -> provide app constructor = app)
  /\ (forall app e, err app = Some e -> provideAll app = app)
  /\ (forall opts st e,
        err (applyOptions opts (initialApp dig)) = Some e ->
        New dig opts st = (applyOptions opts (initialApp dig), st))
  /\ (forall opts st e,
        err (provideAll (applyOptions opts (initialApp dig))) = Some e ->
        New dig opts st = (provideAll (applyOptions opts (initialApp dig)), st))
  /\ (forall errs app,
        err (apply (ErrorOption errs) app)
        = multierr.Append (err app) (multierr.Combine errs))
  /\ (forall o app, exists more,
        multierr.Errors (err (apply o app)) = multierr.Errors (err app) ++ more)
  /\ (forall o app, err app <> None -> err (apply o app) <> None).
Proof.
  repeat split.
  - apply provide_err.
  - apply provideAll_err.
  - intros opts st e He. unfold New. rewrite (provideAll_err _ _ He). now rewrite He.
  - intros opts st e He. unfold New. now rewrite He.
  - intros o app. apply apply_Errors_prefix.
  - intros o app. apply apply_err_sticky.
Qed.

End WithWorld.

(** Hooks A and B were registered before an invocation failed: [Stop]
    has hooks at hand and still runs none. *)
Lemma construction_error_blocks_Start_Stop_witness :
  Start PhaseFirst Examples.ctxA Examples.appFailed
  = (Returned (Some (errorString "invoke failed")), Examples.appFailed)
  /\ Stop PhaseFirst Examples.ctxB Examples.appFailed
     = (Returned None, Examples.appFailed)
  /\ List.length (lifecycle.hooks (lifecycle (fst Examples.appFailed))) = 2.
Proof.
  destruct (construction_error_blocks_Start_Stop Examples.exDig Examples.appFailed
              Examples.ctxA (errorString "invoke failed")
              (reachable_New Examples.exDig _ _) eq_refl)
    as (_ & H1 & _).
  destruct (construction_error_blocks_Start_Stop Examples.exDig Examples.appFailed
              Examples.ctxB (errorString "invoke failed")
              (reachable_New Examples.exDig _ _) eq_refl)
    as (_ & _ & _ & H2 & _).
  repeat split; assumption || reflexivity.
Defined.


(** An option whose [apply] would drop every listener has no effect: the
    free slot receives [SIGTERM], the pending one is reported. *)
Lemma Shutdown_ignores_options_witness :
  Shutdown [mkShutdownOption Examples.exDig (fun app => setDones app [])]
           (setDones (fst Examples.appAB) [None; Some SIGINT])
  = (Some (errorString "failed to send terminated signal to 1 out of 2 channels"),
     setDones (fst Examples.appAB) [Some SIGTERM; Some SIGINT])
  /\ fst (Shutdown [mkShutdownOption Examples.exDig (fun app => setDones app [])]
                   (setDones (fst Examples.appAB) [None; Some SIGINT]))
     = fst (Shutdown [] (setDones (fst Examples.appAD) [None; Some SIGINT])).
Proof.
  destruct (Shutdown_ignores_options Examples.exDig
              [mkShutdownOption Examples.exDig (fun app => setDones app [])] []
              (setDones (fst Examples.appAB) [None; Some SIGINT])
              (setDones (fst Examples.appAD) [None; Some SIGINT]) eq_refl)
    as (H1 & H2 & _ & _ & H3 & _).
  split; [|exact H3].
  rewrite (surjective_pairing (Shutdown _ _)), H1, H2. reflexivity.
Defined.

(** The scenario of the spec: three listeners, the second one with a
    pending signal. *)
Lemma broadcastSignal_report_witness :
  fst (broadcastSignal SIGTERM (setDones (fst Examples.appAB) [None; Some SIGINT; None]))
  = Some (errorString "failed to send terminated signal to 1 out of 3 channels")
  /\ dones (snd (broadcastSignal SIGTERM
                   (setDones (fst Examples.appAB) [None; Some SIGINT; None])))
     = [Some SIGTERM; Some SIGINT; Some SIGTERM].
Proof.
  destruct (broadcastSignal_report Examples.exDig SIGTERM
              (setDones (fst Examples.appAB) [None; Some SIGINT; None]))
    as (_ & _ & _ & _ & _ & _ & H & _).
  split; [apply H; discriminate | reflexivity].
Defined.

(** Hook B fails to start and the rollback of hook C fails too: both
    errors are in the result. *)
Lemma start_rollback_witness :
  fst (start Examples.ctxA Examples.appCB)
  = Returned (Some (multiError [errorString "B: start failed";
                                errorString "C: stop failed"])).
Proof.
  destruct (start_rollback Examples.exDig (fst Examples.appCB) Examples.ctxA
              Examples.st0 _ _ _ eq_refl eq_refl) as (H & _).
  exact (f_equal fst (H _ _ _ eq_refl)).
Defined.

(** The scenario of the spec: A starts, B fails; the rollback stops A
    only and the result is B's error alone. *)
Example start_rollback_scenario :
  fst (start Examples.ctxA Examples.appAB)
  = Returned (Some (errorString "B: start failed"))
  /\ calls (snd (snd (start Examples.ctxA Examples.appAB)))
     = [CallStart 0 Examples.ctxA; CallStart 1 Examples.ctxA; CallStop 0 Examples.ctxA].
Proof. split; reflexivity. Qed.

Lemma rollback_runs_under_start_context_witness :
  exists r app' st2,
    start Examples.ctxA Examples.appAB = (Returned (Some r), (app', st2))
    /\ calls st2
       = [CallStart 0 Examples.ctxA; CallStart 1 Examples.ctxA; CallStop 0 Examples.ctxA].
Proof.
  destruct (rollback_runs_under_start_context Examples.exDig (fst Examples.appAB)
              Examples.ctxA (snd Examples.appAB) _ _ _ eq_refl eq_refl eq_refl)
    as (r & app' & st2 & H1 & _ & H2 & _).
  exists r, app', st2. split; [exact H1 | exact H2].
Defined.

(** C7 fails on the code: with a start timeout of 10s and a stop timeout
    of 20s, the stop action of the rollback is called with the context of
    the start phase, which no stop timeout bounds. *)
Lemma rollback_not_under_stop_timeout :
  startTimeout (fst Examples.appAB) = (10 * Second)%Z
  /\ stopTimeout (fst Examples.appAB) = (20 * Second)%Z
  /\ calls (snd (snd (run PhaseFirst PhaseFirst 0 Examples.appAB)))
     = [CallStart 0 (WithTimeout Background (10 * Second)%Z);
        CallStart 1 (WithTimeout Background (10 * Second)%Z);
        CallStop 0 (WithTimeout Background (10 * Second)%Z)]
  /\ forallb (underStopTimeout (fst Examples.appAB))
             (calls (snd (snd (run PhaseFirst PhaseFirst 0 Examples.appAB)))) = false.
Proof. repeat split. Qed.

(** Two observers, and an invocation that fails with an error the
    container can draw. *)
Lemma observers_run_on_invoke_failure_only_witness :
  calls (snd (New Examples.exDig
                [errorHookOption [Examples.observer 1; Examples.observer 2];
                 invokeOption [Examples.registerAB; Examples.cyclicInvoke]]
                Examples.st0))
  = [CallHandleError 0 (errorWithGraph "digraph {}" (errorString "cycle detected"));
     CallHandleError 1 (errorWithGraph "digraph {}" (errorString "cycle detected"))].
Proof.
  destruct (proj1 (observers_run_on_invoke_failure_only Examples.exDig
                     [errorHookOption [Examples.observer 1; Examples.observer 2];
                      invokeOption [Examples.registerAB; Examples.cyclicInvoke]]
                     Examples.st0)
                  _ _ _ eq_refl eq_refl) as (_ & _ & H & _).
  exact H.
Defined.

(** C8 fails on the code: an observer is registered and construction
    fails in an [Error] option, or in a provide, or [start] fails; the
    observer is never called. *)
Lemma observers_skipped_outside_invocations :
  (let r := New Examples.exDig
              [errorHookOption [Examples.observer 1]; ErrorOption [Some Examples.e1]]
              Examples.st0 in
   Err (fst r) = Some Examples.e1
   /\ errorHooks (fst r) = [Examples.observer 1]
   /\ calls (snd r) = [])
  /\ (let r := New Examples.exDig
                 [errorHookOption [Examples.observer 1];
                  provideOption [VFunc "bad" false]]
                 Examples.st0 in
      Err (fst r) = Some (errorString "bad constructor")
      /\ errorHooks (fst r) = [Examples.observer 1]
      /\ calls (snd r) = [])
  /\ (let r := start Examples.ctxA Examples.appObserved in
      errorHooks (fst Examples.appObserved) = [Examples.observer 1]
      /\ fst r = Returned (Some (errorString "B: start failed"))
      /\ handlerCalls (calls (snd (snd r))) = []).
Proof. repeat split. Qed.

(** An [Error] option comes first: the provides are skipped and the
    invocation is not run. *)
Lemma construction_error_first_wins_except_Error_options_witness :
  New Examples.exDig
      [ErrorOption [Some Examples.e1]; provideOption [VFunc "bad" false];
       invokeOption [Examples.failingInvoke]]
      Examples.st0
  = (applyOptions [ErrorOption [Some Examples.e1]; provideOption [VFunc "bad" false];
                   invokeOption [Examples.failingInvoke]]
                  (initialApp Examples.exDig),
     Examples.st0).
Proof.
  destruct (construction_error_first_wins_except_Error_options Examples.exDig)
    as (_ & _ & H & _).
  exact (H [ErrorOption [Some Examples.e1]; provideOption [VFunc "bad" false];
            invokeOption [Examples.failingInvoke]]
           Examples.st0 Examples.e1 eq_refl).
Defined.

(** C9 fails on the code: a second [Error] option changes the recorded
    error. *)
Lemma second_Error_option_changes_the_error :
  let app1 := apply (ErrorOption [Some Examples.e1]) (initialApp Examples.exDig) in
  let app2 := apply (ErrorOption [Some Examples.e2]) app1 in
  err app1 = Some Examples.e1
  /\ err app2 = Some (multiError [Examples.e1; Examples.e2])
  /\ err app2 <> err app1
  /\ Err (fst (New Examples.exDig
                 [ErrorOption [Some Examples.e1]; ErrorOption [Some Examples.e2]]
                 Examples.st0))
     = Some (multiError [Examples.e1; Examples.e2]).
Proof. repeat split. discriminate. Qed.

End FxFacts.

(** * Further properties of package lifecycle *)

Module LifecycleExtras.

Import lifecycle.

Section WithWorld.
Context {World : Type}.

Local Abbreviation Hook := (Hook World).
Local Abbreviation Lifecycle := (Lifecycle World).

Implicit Types (hs : list Hook) (h : Hook) (l : Lifecycle)
               (st : State World) (ctx : Context).

(** *** What [Combine] makes of the collected failures *)

Lemma firstError_nil_iff (errs : list (option error)) :
  multierr.firstError errs = None <-> Forall (eq None) errs.
Proof.
  induction errs as [|[e|] errs IH]; simpl.
  - split; [constructor | reflexivity].
  - split; [discriminate | intro H; inversion H; discriminate].
  - rewrite IH. split; [now constructor | intro H; now inversion H].
Qed.

Lemma count_zero_iff (errs : list (option error)) :
  multierr.count errs = 0 <-> Forall (eq None) errs.
Proof.
  unfold multierr.count. induction errs as [|[e|] errs IH]; simpl.
  - split; [constructor | reflexivity].
  - split; [discriminate | intro H; inversion H; discriminate].
  - rewrite IH. split; [now constructor | intro H; now inversion H].
Qed.

Lemma Combine_nil_iff (errs : list (option error)) :
  multierr.Combine errs = None <-> Forall (eq None) errs.
Proof.
  unfold multierr.Combine, multierr.fromSlice.
  destruct (multierr.count errs) as [|[|c]] eqn:E.
  - rewrite <- count_zero_iff. tauto.
  - rewrite firstError_nil_iff, <- count_zero_iff, E. tauto.
  - rewrite <- count_zero_iff, E.
    destruct (_ && _); split; discriminate.
Qed.

(** *** The failures the stop loop collects *)

(** A stop action that fails in the world it is called in leaves its
    error among the collected failures. *)
Lemma stopsInReverse_failure_kept ctx (before after : list Hook) h f (w : World) :
  OnStop h = Some f ->
  snd (f ctx (fst (stopsInReverse ctx after w))) <> None ->
  ~ Forall (eq None) (snd (stopsInReverse ctx (before ++ h :: after) w)).
Proof.
  intros Hf Hfail Hall.
  rewrite LifecycleFacts.stopsInReverse_app in Hall. cbn [stopsInReverse] in Hall.
  rewrite Hf in Hall.
  destruct (stopsInReverse ctx after w) as [w1 e1]. cbn [fst] in Hfail.
  destruct (f ctx w1) as [w2 [e|]]; [|now apply Hfail].
  destruct (stopsInReverse ctx before w2) as [w3 e3]. cbn [snd] in Hall.
  apply Forall_app in Hall as [Hall _]. apply Forall_app in Hall as [_ Hall].
  inversion Hall; discriminate.
Qed.

(** When every stop action succeeds in the world it is called in, no
    failure is collected. *)
Lemma stopsInReverse_no_failure ctx hs (w : World) :
  (forall (before : list Hook) h (after : list Hook) f,
      hs = before ++ h :: after ->
      OnStop h = Some f ->
      snd (f ctx (fst (stopsInReverse ctx after w))) = None) ->
  snd (stopsInReverse ctx hs w) = [].
Proof.
  induction hs as [|h rest IH]; intro Hok; [reflexivity|].
  assert (Hrest : snd (stopsInReverse ctx rest w) = []).
  { apply IH. intros before h' after f -> Hf. exact (Hok (h :: before) h' after f eq_refl Hf). }
  pose proof (Hok [] h rest) as Hh. cbn [stopsInReverse].
  destruct (stopsInReverse ctx rest w) as [w1 e1]. cbn [fst snd] in *.
  destruct (OnStop h) as [f|]; [|exact Hrest].
  specialize (Hh f eq_refl eq_refl).
  destruct (f ctx w1) as [w2 [e|]]; [discriminate Hh | exact Hrest].
Qed.

(** X2.  A failing stop action is never swallowed and never cuts the cleanup
    short: when the stop action of one started hook [h] fails in the world
    it is called in (the one the stop actions of the hooks started after [h]
    leave), [Stop] still applies the stop action of every started hook, from
    the last to the first, and returns an error. *)
Theorem Stop_reports_failure_after_full_cleanup l ctx st
    (before : list Hook) h (after : list Hook) f :
  numStarted l <= List.length (hooks l) ->
  firstn (numStarted l) (hooks l) = before ++ h :: after ->
  OnStop h = Some f ->
  snd (f ctx (fst (stopsInReverse ctx after (world st)))) <> None ->
  exists e st',
    Stop l ctx st = (Returned (Some e), {| hooks := hooks l; numStarted := 0 |}, st')
    /\ calls st' = calls st ++ stopCalls ctx (firstn (numStarted l) (hooks l))
    /\ world st' = fst (stopsInReverse ctx (firstn (numStarted l) (hooks l)) (world st)).
Proof.
  intros Hle Hsplit Hf Hfail.
  rewrite (LifecycleFacts.Stop_refines l ctx st Hle).
  pose proof (stopsInReverse_failure_kept ctx before after h f (world st) Hf Hfail) as Hne.
  rewrite <- Hsplit in Hne.
  destruct (multierr.Combine _) as [e|] eqn:E.
  - eexists e, _. split; [reflexivity|]. split; reflexivity.
  - apply Combine_nil_iff in E. contradiction.
Qed.

(** X3.  When no stop action of a started hook fails in the world it is
    called in, [Stop] applies them all, from the last to the first, and
    returns [nil]. *)
Theorem Stop_nil_without_failure l ctx st :
  numStarted l <= List.length (hooks l) ->
  (forall (before : list Hook) h (after : list Hook) f,
      firstn (numStarted l) (hooks l) = before ++ h :: after ->
      OnStop h = Some f ->
      snd (f ctx (fst (stopsInReverse ctx after (world st)))) = None) ->
  exists st',
    Stop l ctx st = (Returned None, {| hooks := hooks l; numStarted := 0 |}, st')
    /\ calls st' = calls st ++ stopCalls ctx (firstn (numStarted l) (hooks l))
    /\ world st' = fst (stopsInReverse ctx (firstn (numStarted l) (hooks l)) (world st)).
Proof.
  intros Hle Hok.
  rewrite (LifecycleFacts.Stop_refines l ctx st Hle).
  rewrite (stopsInReverse_no_failure ctx _ (world st) Hok).
  eexists. split; [reflexivity|]. split; reflexivity.
Qed.

(** *** Starting *)

Lemma Start_ok l ctx st l1 st1 :
  Start l ctx st = (None, l1, st1) ->
  calls st1 = calls st ++ startCalls ctx (hooks l)
  /\ numStarted l1 = numStarted l + List.length (hooks l)
  /\ hooks l1 = hooks l.
Proof.
  unfold Start. intro H.
  destruct (startLoop (hooks l) 0 ctx (numStarted l) st) as [[r n1] st1'] eqn:Hloop.
  injection H as -> <- ->.
  apply LifecycleFacts.startLoop_ok in Hloop as [-> ->]. auto.
Qed.

(** The world a successful walk of [Start] leaves is the one the start
    actions, applied in registration order, give. *)
Lemma startLoop_world hs : forall i ctx n st n1 st1,
  startLoop hs i ctx n st = (None, n1, st1) ->
  world st1 = startsInOrder ctx hs (world st).
Proof.
  induction hs as [|h rest IH]; intros i ctx n st n1 st1 H; simpl in H.
  - now injection H as _ <-.
  - unfold startsInOrder. cbn [fold_left].
    fold (startsInOrder (World := World) ctx rest).
    destruct (OnStart h) as [f|]; [|exact (IH _ _ _ _ _ _ H)].
    destruct (f ctx (world st)) as [w [e|]]; [discriminate|].
    exact (IH _ _ _ _ _ _ H).
Qed.

(** X1.  A successful [Start] applies the start actions in registration
    order, each once, and counts every hook, with or without a start
    action: the calls are those of the hooks in order, and the world is the
    one these actions, applied in that order, leave. *)
Theorem Start_success_in_registration_order l ctx st l1 st1 :
  Start l ctx st = (None, l1, st1) ->
  calls st1 = calls st ++ startCalls ctx (hooks l)
  /\ numStarted l1 = numStarted l + List.length (hooks l)
  /\ hooks l1 = hooks l
  /\ world st1 = startsInOrder ctx (hooks l) (world st).
Proof.
  intro H. destruct (Start_ok _ _ _ _ _ H) as (Hc & Hn & Hh).
  repeat (split; [assumption|]).
  unfold Start in H.
  destruct (startLoop (hooks l) 0 ctx (numStarted l) st) as [[r n1] st1'] eqn:Hloop.
  injection H as -> _ ->. exact (startLoop_world _ _ _ _ _ _ _ Hloop).
Qed.

(** X4.  [Start] does not look at [numStarted]: a second successful [Start]
    without a [Stop] in between counts every hook twice, and the next [Stop]
    panics on its first index, before any stop action is called. *)
Theorem Stop_panics_after_double_Start l ctx ctx' ctx'' st l1 st1 l2 st2 :
  numStarted l = 0 ->
  hooks l <> [] ->
  Start l ctx st = (None, l1, st1) ->
  Start l1 ctx' st1 = (None, l2, st2) ->
  numStarted l2 = 2 * List.length (hooks l)
  /\ Stop l2 ctx'' st2 = (Panicked "index out of range", l2, st2).
Proof.
  intros Hn Hne H1 H2.
  apply Start_ok in H1 as (_ & Hn1 & Hh1).
  apply Start_ok in H2 as (_ & Hn2 & Hh2).
  assert (Hlen : numStarted l2 = 2 * List.length (hooks l)) by (rewrite Hn2, Hn1, Hh1; lia).
  split; [exact Hlen|].
  assert (Hpos : 0 < List.length (hooks l)) by (destruct (hooks l); [contradiction | simpl; lia]).
  unfold Stop. destruct (numStarted l2) as [|m] eqn:Em; [lia|].
  simpl. assert (Hnone : nth_error (hooks l2) m = None).
  { apply nth_error_None. rewrite Hh2, Hh1. lia. }
  rewrite Hnone. rewrite <- Em. now destruct l2.
Qed.

(** *** Hooks appended late *)

Lemma stopLoop_ignores_tail hs extra : forall n ctx errs st,
  n <= List.length hs ->
  stopLoop (hs ++ extra) n ctx errs st = stopLoop hs n ctx errs st.
Proof.
  induction n as [|m IH]; intros ctx errs st Hn; simpl; [reflexivity|].
  rewrite nth_error_app1 by lia.
  destruct (nth_error hs m) as [h|]; [|reflexivity].
  destruct (OnStop h) as [f|]; [|apply IH; lia].
  destruct (f ctx (world st)) as [w [e|]]; apply IH; lia.
Qed.

(** X5.  A hook appended after [Start] is not stopped: [Stop] on the extended
    registry returns the same result, makes the same calls and leaves the
    same world as on the registry before the [Append]. *)
Theorem Stop_skips_hook_appended_after_Start l hook callerName ctx st :
  numStarted l <= List.length (hooks l) ->
  fst (fst (Stop (Append l hook callerName) ctx st)) = fst (fst (Stop l ctx st))
  /\ snd (Stop (Append l hook callerName) ctx st) = snd (Stop l ctx st)
  /\ numStarted (snd (fst (Stop (Append l hook callerName) ctx st))) = 0.
Proof.
  intro Hle. unfold Stop, Append. cbn [hooks numStarted].
  rewrite stopLoop_ignores_tail by exact Hle.
  destruct (stopLoop (hooks l) (numStarted l) ctx [] st) as [[out n] st'] eqn:E.
  repeat split.
  destruct (LifecycleFacts.stopLoop_calls (hooks l) (numStarted l) ctx [] st Hle)
    as (errs & st'' & Hloop & _).
  rewrite Hloop in E. now injection E as _ <- _.
Qed.

End WithWorld.

Lemma Stop_reports_failure_after_full_cleanup_witness :
  exists e st',
    Stop {| hooks := [Examples.hookA; Examples.hookC]; numStarted := 2 |}
         Examples.ctxB Examples.st0
    = (Returned (Some e),
       {| hooks := [Examples.hookA; Examples.hookC]; numStarted := 0 |}, st')
    /\ calls st' = [CallStop 1 Examples.ctxB; CallStop 0 Examples.ctxB]
    /\ world st' = 2.
Proof.
  apply (Stop_reports_failure_after_full_cleanup
           {| hooks := [Examples.hookA; Examples.hookC]; numStarted := 2 |}
           Examples.ctxB Examples.st0 [Examples.hookA] Examples.hookC []
           (Examples.failWith "C: stop failed")).
  - simpl. lia.
  - reflexivity.
  - reflexivity.
  - simpl. discriminate.
Defined.

Lemma Stop_nil_without_failure_witness :
  exists st',
    Stop {| hooks := [Examples.hookA; Examples.hookD]; numStarted := 2 |}
         Examples.ctxB Examples.st0
    = (Returned None,
       {| hooks := [Examples.hookA; Examples.hookD]; numStarted := 0 |}, st')
    /\ calls st' = [CallStop 0 Examples.ctxB]
    /\ world st' = 1.
Proof.
  apply (Stop_nil_without_failure
           {| hooks := [Examples.hookA; Examples.hookD]; numStarted := 2 |}
           Examples.ctxB Examples.st0).
  - simpl. lia.
  - intros [|b [|b' [|b'' before]]] h after f Hsplit Hf; simpl in Hsplit.
    + injection Hsplit as <- <-. injection Hf as <-. reflexivity.
    + injection Hsplit as _ <- _. discriminate Hf.
    + injection Hsplit as _ _ Hnil. discriminate Hnil.
    + injection Hsplit as _ _ Hnil. discriminate Hnil.
Defined.

Lemma Start_success_in_registration_order_witness :
  calls {| world := 2; calls := [CallStart 0 Examples.ctxA; CallStart 2 Examples.ctxA] |}
  = calls Examples.st0
    ++ startCalls Examples.ctxA [Examples.hookA; Examples.hookC; Examples.hookD]
  /\ 3 = 0 + 3
  /\ [Examples.hookA; Examples.hookC; Examples.hookD]
     = [Examples.hookA; Examples.hookC; Examples.hookD]
  /\ 2 = startsInOrder Examples.ctxA [Examples.hookA; Examples.hookC; Examples.hookD] 0.
Proof.
  exact (Start_success_in_registration_order
           {| hooks := [Examples.hookA; Examples.hookC; Examples.hookD]; numStarted := 0 |}
           Examples.ctxA Examples.st0
           {| hooks := [Examples.hookA; Examples.hookC; Examples.hookD]; numStarted := 3 |}
           {| world := 2; calls := [CallStart 0 Examples.ctxA; CallStart 2 Examples.ctxA] |}
           eq_refl).
Defined.

Lemma Stop_panics_after_double_Start_witness :
  Stop {| hooks := [Examples.hookA; Examples.hookD]; numStarted := 4 |} Examples.ctxB
       {| world := 4;
          calls := [CallStart 0 Examples.ctxA; CallStart 1 Examples.ctxA;
                    CallStart 0 Examples.ctxA; CallStart 1 Examples.ctxA] |}
  = (Panicked "index out of range",
     {| hooks := [Examples.hookA; Examples.hookD]; numStarted := 4 |},
     {| world := 4;
        calls := [CallStart 0 Examples.ctxA; CallStart 1 Examples.ctxA;
                  CallStart 0 Examples.ctxA; CallStart 1 Examples.ctxA] |}).
Proof.
  refine (proj2 (Stop_panics_after_double_Start
                   {| hooks := [Examples.hookA; Examples.hookD]; numStarted := 0 |}
                   Examples.ctxA Examples.ctxA Examples.ctxB Examples.st0
                   {| hooks := [Examples.hookA; Examples.hookD]; numStarted := 2 |}
                   {| world := 2;
                      calls := [CallStart 0 Examples.ctxA; CallStart 1 Examples.ctxA] |}
                   {| hooks := [Examples.hookA; Examples.hookD]; numStarted := 4 |}
                   _ eq_refl _ eq_refl eq_refl)).
  discriminate.
Defined.

Lemma Stop_skips_hook_appended_after_Start_witness :
  snd (Stop (Append {| hooks := [Examples.hookA]; numStarted := 1 |}
                    Examples.hookC "late")
            Examples.ctxB Examples.st0)
  = snd (Stop {| hooks := [Examples.hookA]; numStarted := 1 |} Examples.ctxB Examples.st0).
Proof.
  refine (proj1 (proj2 (Stop_skips_hook_appended_after_Start
                          {| hooks := [Examples.hookA]; numStarted := 1 |}
                          Examples.hookC "late" Examples.ctxB Examples.st0 _))).
  simpl. lia.
Defined.

End LifecycleExtras.

(** * Further properties of package fx *)

Module FxExtras.

Import fx.

Section WithWorld.
Context {World : Type} (dig : Dig World).

Local Abbreviation App := (App dig).

Implicit Types (app : App) (st : State World) (ctx : Context)
               (s : App * State World) (opts pre post og : list (Option World)).

(** *** Options *)

Lemma applyOptions_app pre post app :
  applyOptions (pre ++ post) app = applyOptions post (applyOptions pre app).
Proof. unfold applyOptions. apply fold_left_app. Qed.

Lemma New_by_options opts opts' st :
  applyOptions opts (initialApp dig) = applyOptions opts' (initialApp dig) ->
  New dig opts st = New dig opts' st.
Proof. intro H. unfold New. now rewrite H. Qed.

(** X6.  [Options] only bundles: replacing a group by its members, in place,
    changes nothing of what [New] does. *)
Theorem Options_group_is_transparent pre og post st :
  New dig (pre ++ optionGroup og :: post) st = New dig (pre ++ og ++ post) st.
Proof.
  apply New_by_options.
  rewrite !applyOptions_app. reflexivity.
Qed.

(** X7.  [Provide], [Invoke] and [ErrorHook] options append to what is already
    registered: one option carrying two lists in a row is the same as two
    options in a row. *)
Theorem list_options_append pre post st :
  (forall cs1 cs2,
      New dig (pre ++ provideOption (cs1 ++ cs2) :: post) st
      = New dig (pre ++ provideOption cs1 :: provideOption cs2 :: post) st)
  /\ (forall fs1 fs2,
        New dig (pre ++ invokeOption (fs1 ++ fs2) :: post) st
        = New dig (pre ++ invokeOption fs1 :: invokeOption fs2 :: post) st)
  /\ (forall hs1 hs2,
        New dig (pre ++ errorHookOption (hs1 ++ hs2) :: post) st
        = New dig (pre ++ errorHookOption hs1 :: errorHookOption hs2 :: post) st).
Proof.
  repeat split; intros xs ys; apply New_by_options;
    rewrite !applyOptions_app; unfold applyOptions; simpl;
    now rewrite app_assoc.
Qed.

(** *** What provides and invocations leave alone *)

Lemma containerProvide_config app target popts :
  startTimeout (containerProvide app target popts) = startTimeout app
  /\ stopTimeout (containerProvide app target popts) = stopTimeout app
  /\ provides (containerProvide app target popts) = provides app
  /\ dones (containerProvide app target popts) = dones app.
Proof.
  unfold containerProvide.
  destruct (dig_Provide dig (container app) target popts) as [c [e|]]; auto.
Qed.

Lemma provide_config app constructor :
  startTimeout (provide app constructor) = startTimeout app
  /\ stopTimeout (provide app constructor) = stopTimeout app
  /\ provides (provide app constructor) = provides app
  /\ dones (provide app constructor) = dones app.
Proof.
  unfold provide. destruct (err app); [auto|].
  destruct constructor as [r|name group target|name [|]|r];
    try apply containerProvide_config; auto.
  destruct ((0 <? String.length group)%nat && (0 <? String.length name)%nat); [auto|].
  destruct (0 <? String.length name)%nat; [apply containerProvide_config|].
  destruct (0 <? String.length group)%nat; apply containerProvide_config.
Qed.

Lemma fold_provide_config cs : forall app,
  startTimeout (fold_left provide cs app) = startTimeout app
  /\ stopTimeout (fold_left provide cs app) = stopTimeout app
  /\ provides (fold_left provide cs app) = provides app
  /\ dones (fold_left provide cs app) = dones app.
Proof.
  induction cs as [|c cs IH]; intro app; simpl; [auto|].
  destruct (IH (provide app c)) as (-> & -> & -> & ->). apply provide_config.
Qed.

Lemma provideAll_config app :
  startTimeout (provideAll app) = startTimeout app
  /\ stopTimeout (provideAll app) = stopTimeout app
  /\ provides (provideAll app) = provides app
  /\ dones (provideAll app) = dones app.
Proof.
  unfold provideAll.
  repeat match goal with
         | |- context [provide ?a ?c] =>
             destruct (provide_config a c) as (-> & -> & -> & ->)
         end.
  apply fold_provide_config.
Qed.

Lemma executeInvokesFrom_config fns : forall app st e app' st',
  executeInvokesFrom fns app st = (e, app', st') ->
  startTimeout app' = startTimeout app
  /\ stopTimeout app' = stopTimeout app
  /\ provides app' = provides app
  /\ invokes app' = invokes app
  /\ dones app' = dones app.
Proof.
  induction fns as [|fn fns IH]; intros app st e app' st' H; simpl in H.
  - injection H as _ <- _. auto.
  - destruct fn as [r|name group target|name b|r]; simpl in H;
      try (injection H as _ <- _; now auto);
      (destruct (ir_err _ _);
       [injection H as _ <- _; now auto
       | apply IH in H as (-> & -> & -> & -> & ->); now auto]).
Qed.

Lemma New_configuration opts st :
  let configured := applyOptions opts (initialApp dig) in
  let app := fst (New dig opts st) in
  startTimeout app = startTimeout configured
  /\ stopTimeout app = stopTimeout configured
  /\ provides app = provides configured
  /\ invokes app = invokes configured
  /\ errorHooks app = errorHooks configured
  /\ dones app = dones configured.
Proof.
  intros configured app. subst app. unfold New. fold configured.
  destruct (provideAll_config configured) as (Ha & Hb & Hc & Hd).
  destruct (FxFacts.provideAll_fields dig configured) as (_ & He & Hf).
  destruct (err (provideAll configured)); cbn [fst]; [now auto|].
  destruct (executeInvokes (provideAll configured) st) as [[e app'] st'] eqn:E.
  pose proof E as E'.
  apply executeInvokesFrom_config in E as (Ha' & Hb' & Hc' & Hd' & He').
  apply FxFacts.executeInvokesFrom_fields in E' as (_ & _ & Hh & _).
  destruct e; cbn [fst]; simpl; repeat split; congruence.
Qed.

(** X8.  What the options configured is what the application has: the
    provides and the invocations that [New] runs change neither timeout,
    nor the lists of constructors, invocations and observers, and register
    no shutdown listener. *)
Theorem New_keeps_configuration opts st :
  let configured := applyOptions opts (initialApp dig) in
  let app := fst (New dig opts st) in
  startTimeout app = startTimeout configured
  /\ stopTimeout app = stopTimeout configured
  /\ provides app = provides configured
  /\ invokes app = invokes configured
  /\ errorHooks app = errorHooks configured
  /\ dones app = dones configured.
Proof. apply New_configuration. Qed.

(** *** Timeouts *)

Lemma apply_startTimeout_unset (o : Option World) : forall app,
  setsStartTimeout o = false -> startTimeout (apply o app) = startTimeout app.
Proof.
  induction o as [errs|cs|fs|og IH|v|v| |hs] using FxFacts.Option_nested_ind;
    intros app Hs; try reflexivity; try discriminate.
  simpl in Hs |- *. revert app. induction IH as [|o og Ho _ IHog]; intro app; simpl.
  - reflexivity.
  - simpl in Hs. apply Bool.orb_false_iff in Hs as [Hs1 Hs2].
    rewrite (IHog Hs2). now apply Ho.
Qed.

Lemma apply_stopTimeout_unset (o : Option World) : forall app,
  setsStopTimeout o = false -> stopTimeout (apply o app) = stopTimeout app.
Proof.
  induction o as [errs|cs|fs|og IH|v|v| |hs] using FxFacts.Option_nested_ind;
    intros app Hs; try reflexivity; try discriminate.
  simpl in Hs |- *. revert app. induction IH as [|o og Ho _ IHog]; intro app; simpl.
  - reflexivity.
  - simpl in Hs. apply Bool.orb_false_iff in Hs as [Hs1 Hs2].
    rewrite (IHog Hs2). now apply Ho.
Qed.

Lemma applyOptions_startTimeout_unset post : forall app,
  existsb setsStartTimeout post = false ->
  startTimeout (applyOptions post app) = startTimeout app.
Proof.
  unfold applyOptions. induction post as [|o post IH]; intros app Hs; simpl; [reflexivity|].
  simpl in Hs. apply Bool.orb_false_iff in Hs as [Hs1 Hs2].
  rewrite (IH _ Hs2). now apply apply_startTimeout_unset.
Qed.

Lemma applyOptions_stopTimeout_unset post : forall app,
  existsb setsStopTimeout post = false ->
  stopTimeout (applyOptions post app) = stopTimeout app.
Proof.
  unfold applyOptions. induction post as [|o post IH]; intros app Hs; simpl; [reflexivity|].
  simpl in Hs. apply Bool.orb_false_iff in Hs as [Hs1 Hs2].
  rewrite (IH _ Hs2). now apply apply_stopTimeout_unset.
Qed.

Lemma applyOptions_cons (o : Option World) post app :
  applyOptions (o :: post) app = applyOptions post (apply o app).
Proof. reflexivity. Qed.

(** X9.  The start timeout is 15 seconds unless a [StartTimeout] option says
    otherwise, and the last [StartTimeout] option decides, whatever stands
    before it. *)
Theorem last_StartTimeout_decides post st :
  existsb setsStartTimeout post = false ->
  startTimeout (fst (New dig post st)) = (15 * Second)%Z
  /\ (forall pre v,
        startTimeout (fst (New dig (pre ++ StartTimeout v :: post) st)) = v).
Proof.
  intro Hs. split.
  - destruct (New_configuration post st) as (-> & _).
    now rewrite applyOptions_startTimeout_unset.
  - intros pre v.
    destruct (New_configuration (pre ++ StartTimeout v :: post) st) as (-> & _).
    rewrite applyOptions_app, applyOptions_cons.
    now rewrite applyOptions_startTimeout_unset.
Qed.

(** X10.  The same for the stop timeout. *)
Theorem last_StopTimeout_decides post st :
  existsb setsStopTimeout post = false ->
  stopTimeout (fst (New dig post st)) = (15 * Second)%Z
  /\ (forall pre v,
        stopTimeout (fst (New dig (pre ++ StopTimeout v :: post) st)) = v).
Proof.
  intro Hs. split.
  - destruct (New_configuration post st) as (_ & -> & _).
    now rewrite applyOptions_stopTimeout_unset.
  - intros pre v.
    destruct (New_configuration (pre ++ StopTimeout v :: post) st) as (_ & -> & _).
    rewrite applyOptions_app, applyOptions_cons.
    now rewrite applyOptions_stopTimeout_unset.
Qed.

(** *** Invocations *)

Lemma executeInvokesFrom_app fns1 fns2 : forall app st app1 st1,
  executeInvokesFrom fns1 app st = (None, app1, st1) ->
  executeInvokesFrom (fns1 ++ fns2) app st = executeInvokesFrom fns2 app1 st1.
Proof.
  induction fns1 as [|fn fns1 IH]; intros app st app1 st1 H; simpl in H |- *.
  - now injection H as <- <-.
  - destruct (match fn with
              | VOption _ => _
              | _ => containerInvoke app fn st
              end) as [[[e|] app'] st']; [discriminate|].
    now apply IH.
Qed.

(** X13.  Invocations run in the order given and stop at the first failure:
    when the invocations before [fn] succeed and [fn] fails, the result is
    [fn]'s error and the state [fn] left, and nothing after [fn] is run. *)
Theorem executeInvokes_stops_at_first_failure app st
    (before : list Value) (fn : Value) (after : list Value) app1 st1 e app2 st2 :
  invokes app = before ++ fn :: after ->
  executeInvokesFrom before app st = (None, app1, st1) ->
  executeInvokesFrom [fn] app1 st1 = (Some e, app2, st2) ->
  executeInvokes app st = (Some e, app2, st2)
  /\ executeInvokesFrom (before ++ [fn]) app st = executeInvokes app st.
Proof.
  intros Hi Hpre Hfn. unfold executeInvokes. rewrite Hi.
  rewrite !(executeInvokesFrom_app _ _ _ _ _ _ Hpre).
  simpl in Hfn |- *.
  destruct (match fn with
            | VOption _ => _
            | _ => containerInvoke app1 fn st1
            end) as [[[e'|] app'] st']; [|discriminate].
  injection Hfn as <- <- <-. auto.
Qed.

(** An [Option] among the invocations is refused without reaching the
    container: it fails with the message that names it and leaves the
    application and the world as they are. *)
Theorem executeInvokes_refuses_Option app st repr fns :
  executeInvokesFrom (VOption repr :: fns) app st
  = (Some (errorString
             ("fx.Option should be passed to fx.New directly, not to fx.Invoke: fx.Invoke received "
              ++ Sprint dig (VOption repr))),
     app, st).
Proof. reflexivity. Qed.

(** *** Refused constructors *)

Lemma provide_refused app constructor :
  refusedConstructor constructor = true -> err (provide app constructor) <> None.
Proof.
  unfold provide. destruct (err app) eqn:E; [congruence|].
  destruct constructor as [r|name group target|name [|]|r]; simpl; try discriminate.
  intros ->. discriminate.
Qed.

Lemma provide_err_kept app constructor :
  err app <> None -> err (provide app constructor) <> None.
Proof.
  destruct (err app) as [e|] eqn:E; [|contradiction].
  now rewrite (FxFacts.provide_err dig app constructor e E), E.
Qed.

Lemma fold_provide_err_kept cs : forall app,
  err app <> None -> err (fold_left provide cs app) <> None.
Proof.
  induction cs as [|c cs IH]; intros app He; simpl; [exact He|].
  now apply IH, provide_err_kept.
Qed.

Lemma fold_provide_refused cs : forall app,
  existsb refusedConstructor cs = true -> err (fold_left provide cs app) <> None.
Proof.
  induction cs as [|c cs IH]; intros app H; simpl in H |- *; [discriminate|].
  apply Bool.orb_true_iff in H as [H | H].
  - now apply fold_provide_err_kept, provide_refused.
  - now apply IH.
Qed.

(** X12.  A constructor that [provide] refuses (an [Option], an [Annotated]
    with both a name and a group, a function returning [Annotated]) makes
    construction fail, wherever it stands among the constructors; no
    invocation runs and no observer is called. *)
Theorem refused_constructor_fails_construction opts st :
  existsb refusedConstructor (provides (applyOptions opts (initialApp dig))) = true ->
  Err (fst (New dig opts st)) <> None
  /\ snd (New dig opts st) = st
  /\ lifecycle.hooks (lifecycle (fst (New dig opts st)))
     = lifecycle.hooks (lifecycle (applyOptions opts (initialApp dig))).
Proof.
  intro H. unfold New.
  assert (He : err (provideAll (applyOptions opts (initialApp dig))) <> None).
  { unfold provideAll. repeat apply provide_err_kept. now apply fold_provide_refused. }
  destruct (err (provideAll _)) as [e|] eqn:E; [|contradiction].
  cbn [fst snd]. unfold Err. rewrite E. repeat split; [discriminate|].
  now destruct (FxFacts.provideAll_fields dig (applyOptions opts (initialApp dig))) as (-> & _).
Qed.

(** *** Error options *)

Lemma Append_right_not_nil (a : option error) e :
  multierr.Append a (Some e) <> None.
Proof.
  destruct a as [l|]; simpl; [|discriminate].
  destruct e; simpl; destruct l; discriminate.
Qed.

Lemma applyOptions_err_kept opts app :
  err app <> None -> err (applyOptions opts app) <> None.
Proof.
  apply (FxFacts.applyOptions_preserves dig (fun a => err a <> None)).
  apply Forall_forall. intros o _. apply FxFacts.apply_err_sticky.
Qed.

(** X11.  An [Error] option that carries a non-nil error makes construction
    fail, wherever it stands among the options: no constructor is handed to
    the container, no invocation runs and no observer is called. *)
Theorem Error_option_short_circuits pre errs post st e :
  In (Some e) errs ->
  Err (fst (New dig (pre ++ ErrorOption errs :: post) st)) <> None
  /\ New dig (pre ++ ErrorOption errs :: post) st
     = (applyOptions (pre ++ ErrorOption errs :: post) (initialApp dig), st)
  /\ container (fst (New dig (pre ++ ErrorOption errs :: post) st)) = dig_New dig.
Proof.
  intro Hin.
  assert (He : err (applyOptions (pre ++ ErrorOption errs :: post) (initialApp dig)) <> None).
  { rewrite applyOptions_app, applyOptions_cons. apply applyOptions_err_kept. simpl.
    destruct (multierr.Combine errs) as [c|] eqn:E; [apply Append_right_not_nil|].
    apply LifecycleExtras.Combine_nil_iff in E.
    rewrite Forall_forall in E. specialize (E _ Hin). discriminate. }
  destruct (err (applyOptions _ (initialApp dig))) as [e0|] eqn:E0; [|contradiction].
  assert (HN : New dig (pre ++ ErrorOption errs :: post) st
               = (applyOptions (pre ++ ErrorOption errs :: post) (initialApp dig), st)).
  { unfold New. rewrite (FxFacts.provideAll_err dig _ _ E0). now rewrite E0. }
  rewrite HN. cbn [fst]. unfold Err. rewrite E0. repeat split; [discriminate|].
  apply (FxFacts.applyOptions_preserves dig (fun a => container a = dig_New dig));
    [|reflexivity].
  apply Forall_forall. intros o _. clear.
  induction o as [errs|cs|fs|og IH|v|v| |hs] using FxFacts.Option_nested_ind;
    intros app Hc; try exact Hc.
  simpl. fold (@applyOptions _ dig og app).
  now apply (FxFacts.applyOptions_preserves dig (fun a => container a = dig_New dig)).
Qed.

(** An [Error] option without a non-nil error changes nothing. *)
Lemma Error_option_without_error errs app :
  Forall (eq None) errs -> apply (ErrorOption errs) app = app.
Proof.
  intro H. apply LifecycleExtras.Combine_nil_iff in H. simpl. rewrite H.
  destruct app as [[e|] c l p i a b h d]; reflexivity.
Qed.

(** *** What construction calls *)

(** X14.  [New] starts and stops nothing: the only calls it makes are calls of
    the observers, none at all when it returns an application without error,
    and the registry it returns has [numStarted] 0. *)
Theorem New_calls_observers_only opts st :
  exists called,
    calls (snd (New dig opts st)) = calls st ++ called
    /\ handlerCalls called = called
    /\ (Err (fst (New dig opts st)) = None -> called = [])
    /\ lifecycle.numStarted (lifecycle (fst (New dig opts st))) = 0.
Proof.
  pose proof (FxFacts.New_numStarted dig opts st) as Hn. revert Hn.
  unfold New. destruct (err (provideAll _)) as [e0|] eqn:E0.
  - intro Hn. exists []. cbn [fst snd]. rewrite app_nil_r. unfold Err.
    rewrite E0. repeat split; exact Hn.
  - destruct (executeInvokes _ st) as [[[e|] app'] st'] eqn:E; intro Hn; cbn [fst snd] in *.
    + apply FxFacts.executeInvokesFrom_fields in E as (_ & Hc & _).
      eexists. unfold errorHandlerList_HandleError.
      rewrite FxFacts.handleErrorFrom_calls, Hc. split; [reflexivity|].
      split; [|split; [discriminate | exact Hn]].
      generalize (seq 0 (List.length (errorHooks (setErr app' (Some e))))).
      intro js. induction js as [|j js IH]; simpl; [reflexivity | now f_equal].
    + apply FxFacts.executeInvokesFrom_fields in E as (_ & Hc & _).
      exists []. now rewrite app_nil_r.
Qed.

(** *** The graph attached to an error *)

(** X15.  When an invocation fails with an error the container can draw and
    the drawing is not empty, the error every observer receives is one
    [VisualizeError] renders, giving back that drawing.  The error kept in
    the application is the plain one: unless it carries a graph of its own,
    [VisualizeError] of [Err] fails.  The world [New] leaves is the one the
    observers, applied in registration order to the error with its graph,
    make of the world the invocations left. *)
Theorem observers_get_the_graph opts st e app' st' :
  let app := provideAll (applyOptions opts (initialApp dig)) in
  let graph := dig_Visualize dig (container app') (Some e) in
  err app = None ->
  executeInvokes app st = (Some e, app', st') ->
  dig_CanVisualizeError dig e = true ->
  graph <> "" ->
  (forall i herr,
      In (CallHandleError i herr) (handlerCalls (calls (snd (New dig opts st)))) ->
      In (CallHandleError i herr) (calls st) \/ VisualizeError (Some herr) = (graph, None))
  /\ (Graph e = None ->
      VisualizeError (Err (fst (New dig opts st)))
      = ("", Some (errorString "unable to visualize error")))
  /\ world (snd (New dig opts st))
     = fold_left (fun w eh => HandleError eh (errorWithGraph graph e) w)
                 (errorHooks app') (world st').
Proof.
  intros app graph Herr HI Hcan Hgraph. unfold New. fold app. rewrite Herr, HI, Hcan.
  cbn [fst snd]. split; [|split].
  - intros i herr Hin. unfold handlerCalls in Hin. apply filter_In in Hin as [Hin _].
    unfold errorHandlerList_HandleError in Hin.
    rewrite FxFacts.handleErrorFrom_calls in Hin.
    apply FxFacts.executeInvokesFrom_fields in HI as (_ & Hc & _).
    apply in_app_or in Hin as [Hin | Hin]; [left; congruence|].
    right. apply in_map_iff in Hin as (j & Hj & _). injection Hj as _ <-.
    unfold VisualizeError. simpl. fold graph.
    destruct (String.eqb_spec graph ""); [contradiction | reflexivity].
  - intro Hg. unfold Err, VisualizeError. simpl. now rewrite Hg.
  - unfold errorHandlerList_HandleError. now rewrite FxFacts.handleErrorFrom_world.
Qed.

(** *** Listeners *)

Lemma broadcastSignal_dones signal app :
  dones (snd (broadcastSignal signal app)) = map (deliver signal) (dones app).
Proof.
  unfold broadcastSignal. now rewrite FxFacts.broadcastLoop_spec.
Qed.

Lemma broadcastSignal_result signal app :
  fst (broadcastSignal signal app)
  = if (pendingSlots (dones app) =? 0)%nat then None
    else Some (broadcastError signal (pendingSlots (dones app)) (List.length (dones app))).
Proof.
  unfold broadcastSignal. now rewrite FxFacts.broadcastLoop_spec.
Qed.

Lemma pendingSlots_deliver signal (ds : list Chan) :
  pendingSlots (map (deliver signal) ds) = List.length ds.
Proof.
  unfold pendingSlots. induction ds as [|[p|] ds IH]; simpl; auto.
Qed.

Lemma deliver_twice signal1 signal2 (ds : list Chan) :
  map (deliver signal2) (map (deliver signal1) ds) = map (deliver signal1) ds.
Proof.
  induction ds as [|[p|] ds IH]; simpl; [reflexivity | now f_equal | now f_equal].
Qed.

Lemma setDones_same app : setDones app (dones app) = app.
Proof. now destruct app. Qed.

Lemma receive_last app (xs : list Chan) sig :
  dones app = xs ++ [Some sig] ->
  receive (List.length xs) app = Some (sig, setDones app (xs ++ [None])).
Proof.
  intro H. unfold receive. rewrite H.
  rewrite nth_error_app2, Nat.sub_diag by lia. cbn [nth_error].
  rewrite firstn_app, Nat.sub_diag, firstn_all. cbn [firstn]. rewrite app_nil_r.
  rewrite skipn_all2; [reflexivity|]. rewrite length_app. simpl. lia.
Qed.

Lemma receive_empty_last app (xs : list Chan) :
  dones app = xs ++ [None] -> receive (List.length xs) app = None.
Proof.
  intro H. unfold receive. rewrite H.
  now rewrite nth_error_app2, Nat.sub_diag by lia.
Qed.

(** X17.  A listener registered with [Done] gets the signal of the next
    broadcast, can receive it once, and finds its channel empty afterwards;
    the channels of the other listeners are as the broadcast left them. *)
Theorem Done_listener_receives_broadcast signal app :
  let done := fst (Done app) in
  let app1 := snd (Done app) in
  let app2 := snd (broadcastSignal signal app1) in
  done = List.length (dones app)
  /\ dones app1 = dones app ++ [None]
  /\ exists app3,
       receive done app2 = Some (signal, app3)
       /\ dones app3 = map (deliver signal) (dones app) ++ [None]
       /\ receive done app3 = None.
Proof.
  cbn zeta. unfold Done. cbn [fst snd]. split; [reflexivity|]. split; [reflexivity|].
  assert (Hd : dones (snd (broadcastSignal signal (setDones app (dones app ++ [None]))))
               = map (deliver signal) (dones app) ++ [Some signal]).
  { rewrite broadcastSignal_dones. simpl. now rewrite map_app. }
  assert (Hlen : List.length (dones app) = List.length (map (deliver signal) (dones app)))
    by now rewrite length_map.
  rewrite Hlen. eexists. split; [apply receive_last, Hd|].
  split; [reflexivity|]. now apply receive_empty_last.
Qed.

(** X18.  A broadcast fills every channel, so a second broadcast with no
    receive in between reaches no listener: it reports all [N] of [N]
    channels and changes nothing.  The signal of the first broadcast stays
    in the channels. *)
Theorem second_broadcast_reports_every_channel signal1 signal2 app :
  dones app <> [] ->
  let N := List.length (dones app) in
  let app1 := snd (broadcastSignal signal1 app) in
  broadcastSignal signal2 app1 = (Some (broadcastError signal2 N N), app1).
Proof.
  intros Hne N app1.
  assert (HN : N <> 0) by (subst N; destruct (dones app); [contradiction | discriminate]).
  assert (Hd : dones app1 = map (deliver signal1) (dones app))
    by apply broadcastSignal_dones.
  rewrite (surjective_pairing (broadcastSignal signal2 app1)). f_equal.
  - rewrite broadcastSignal_result, Hd, pendingSlots_deliver, length_map. fold N.
    destruct N; [contradiction | reflexivity].
  - unfold broadcastSignal. rewrite FxFacts.broadcastLoop_spec. cbn [snd].
    rewrite Hd, deliver_twice, <- Hd. apply setDones_same.
Qed.

(** With no listener registered a broadcast succeeds and changes
    nothing. *)
Lemma broadcast_without_listener signal app :
  dones app = [] -> broadcastSignal signal app = (None, app).
Proof.
  intro H. unfold broadcastSignal. rewrite H. simpl. rewrite <- H. now rewrite setDones_same.
Qed.

(** *** Stop before Start *)

(** X16.  [Stop] on an application that [New] just returned calls nothing,
    changes nothing and returns [nil] (when the phase settles first),
    whether construction failed or not. *)
Theorem Stop_before_Start_does_nothing opts st ctx :
  Stop PhaseFirst ctx (New dig opts st) = (Returned None, New dig opts st)
  /\ (forall race, snd (Stop race ctx (New dig opts st)) = New dig opts st).
Proof.
  pose proof (FxFacts.New_numStarted dig opts st) as Hn.
  destruct (New dig opts st) as [app st'] eqn:E. cbn [fst] in Hn.
  assert (Hl : lifecycleStop ctx (app, st') = (Returned None, (app, st'))).
  { unfold lifecycleStop. rewrite (FxFacts.Stop_numStarted_zero _ ctx st' Hn).
    now rewrite FxFacts.setLifecycle_same. }
  unfold Stop, withTimeout. rewrite Hl. split; [reflexivity|].
  intros [|ce turns]; [reflexivity|].
  now rewrite FxFacts.lifecycleStopWithin_zero by exact Hn.
Qed.

(** *** Run *)

Lemma receive_setLifecycle i app (l : lifecycle.Lifecycle World) :
  receive i (setLifecycle app l)
  = match receive i app with
    | Some (sig, app') => Some (sig, setLifecycle app' l)
    | None => None
    end.
Proof.
  unfold receive. simpl. destruct (nth_error (dones app) i) as [[sg|]|]; reflexivity.
Qed.

Lemma nth_error_replace {A} (xs : list A) i (x y : A) :
  nth_error xs i = Some x ->
  nth_error (firstn i xs ++ y :: skipn (S i) xs) i = Some y.
Proof.
  intro H. assert (Hlt : i < List.length xs) by (apply nth_error_Some; congruence).
  rewrite nth_error_app2; rewrite length_firstn, Nat.min_l by lia; [|lia].
  now rewrite Nat.sub_diag.
Qed.

(** X19.  [run] gives each phase a context of its own: when the start actions
    succeed under the context bounded by the start timeout, a signal waits
    in the [done] channel and the stop phase settles before its deadline,
    [run] takes the signal out of the channel and applies the stop action of
    every hook, last first, under a context bounded by the stop timeout.
    It ends normally when no stop action failed, and fatally with the
    combined failures otherwise. *)
Theorem run_stops_under_stop_timeout app st done sig l1 st1 :
  let startCtx := WithTimeout Background (startTimeout app) in
  let stopCtx := WithTimeout Background (stopTimeout app) in
  let stopped :=
    lifecycle.stopsInReverse stopCtx (lifecycle.hooks (lifecycle app)) (world st1) in
  err app = None ->
  lifecycle.numStarted (lifecycle app) = 0 ->
  lifecycle.Start (lifecycle app) startCtx st = (None, l1, st1) ->
  nth_error (dones app) done = Some (Some sig) ->
  exists res app3 st3,
    run PhaseFirst PhaseFirst done (app, st) = (res, (app3, st3))
    /\ calls st3
       = calls st
         ++ lifecycle.startCalls startCtx (lifecycle.hooks (lifecycle app))
         ++ lifecycle.stopCalls stopCtx (lifecycle.hooks (lifecycle app))
    /\ world st3 = fst stopped
    /\ lifecycle.numStarted (lifecycle app3) = 0
    /\ nth_error (dones app3) done = Some None
    /\ res = match multierr.Combine (snd stopped) with
             | None => Finished
             | Some e => Fatal "ERROR\t\tFailed to stop cleanly: " e
             end.
Proof.
  intros startCtx stopCtx stopped Herr Hn HStart Hdone.
  destruct (LifecycleExtras.Start_ok _ _ _ _ _ HStart) as (Hc1 & Hn1 & Hh1).
  rewrite Hn in Hn1. simpl in Hn1.
  assert (HStop := LifecycleFacts.Stop_refines l1 stopCtx st1).
  rewrite Hn1, Hh1, firstn_all in HStop. specialize (HStop (le_n _)).
  fold stopped in HStop.
  unfold run, Start, withTimeout, start. cbn [fst snd]. fold startCtx.
  rewrite Herr, HStart.
  cbn [fst snd]. rewrite receive_setLifecycle. unfold receive at 1. rewrite Hdone.
  unfold Stop, withTimeout, lifecycleStop. cbn [lifecycle stopTimeout setLifecycle setDones].
  fold stopCtx. rewrite HStop.
  destruct (multierr.Combine (snd stopped)) as [e|];
    (eexists _, _, _; split; [reflexivity|];
     split; [cbn [calls]; rewrite Hc1; now rewrite <- app_assoc|];
     split; [reflexivity|];
     cbn; split; [reflexivity|];
     split; [now apply (nth_error_replace _ _ (Some sig)) | reflexivity]).
Qed.



(** *** Histories *)

Lemma start_config ctx s out s' :
  start ctx s = (out, s') ->
  err (fst s') = err (fst s)
  /\ startTimeout (fst s') = startTimeout (fst s)
  /\ stopTimeout (fst s') = stopTimeout (fst s)
  /\ errorHooks (fst s') = errorHooks (fst s)
  /\ provides (fst s') = provides (fst s)
  /\ invokes (fst s') = invokes (fst s)
  /\ dones (fst s') = dones (fst s)
  /\ lifecycle.hooks (lifecycle (fst s')) = lifecycle.hooks (lifecycle (fst s)).
Proof.
  destruct s as [app st]. unfold start.
  destruct (err app) eqn:E; [intros [= _ <-]; now auto|].
  unfold lifecycle.Start, lifecycle.Stop.
  destruct (lifecycle.startLoop _ _ _ _ _) as [[[e1|] n1] st1].
  - cbn [lifecycle.hooks lifecycle.numStarted].
    destruct (lifecycle.stopLoop _ _ _ _ _) as [[o n2] st2].
    intros [= _ <-]. simpl. now auto.
  - intros [= _ <-]. simpl. now auto.
Qed.

Lemma lifecycleStop_config ctx s out s' :
  lifecycleStop ctx s = (out, s') ->
  err (fst s') = err (fst s)
  /\ startTimeout (fst s') = startTimeout (fst s)
  /\ stopTimeout (fst s') = stopTimeout (fst s)
  /\ errorHooks (fst s') = errorHooks (fst s)
  /\ provides (fst s') = provides (fst s)
  /\ invokes (fst s') = invokes (fst s)
  /\ dones (fst s') = dones (fst s)
  /\ lifecycle.hooks (lifecycle (fst s')) = lifecycle.hooks (lifecycle (fst s)).
Proof.
  destruct s as [app st]. unfold lifecycleStop, lifecycle.Stop.
  destruct (lifecycle.stopLoop _ _ _ _ _) as [[o n] st''].
  intros [= _ <-]. simpl. now auto 10.
Qed.

(** [Start] and [Stop], however the race with the deadline goes, touch
    nothing but the world, the call record and [numStarted]. *)
Lemma Start_config race ctx s :
  let s' := snd (Start race ctx s) in
  err (fst s') = err (fst s)
  /\ startTimeout (fst s') = startTimeout (fst s)
  /\ stopTimeout (fst s') = stopTimeout (fst s)
  /\ errorHooks (fst s') = errorHooks (fst s)
  /\ provides (fst s') = provides (fst s)
  /\ invokes (fst s') = invokes (fst s)
  /\ dones (fst s') = dones (fst s)
  /\ lifecycle.hooks (lifecycle (fst s')) = lifecycle.hooks (lifecycle (fst s)).
Proof.
  unfold Start, withTimeout. destruct race as [|ce turns].
  - destruct (start ctx s) as [out s''] eqn:E. cbn [snd]. exact (start_config _ _ _ _ E).
  - pose proof (FxFacts.startWithin_fields dig turns ctx s) as H.
    destruct (startWithin turns ctx s) as [p s'']. exact H.
Qed.

Lemma Stop_config race ctx s :
  let s' := snd (Stop race ctx s) in
  err (fst s') = err (fst s)
  /\ startTimeout (fst s') = startTimeout (fst s)
  /\ stopTimeout (fst s') = stopTimeout (fst s)
  /\ errorHooks (fst s') = errorHooks (fst s)
  /\ provides (fst s') = provides (fst s)
  /\ invokes (fst s') = invokes (fst s)
  /\ dones (fst s') = dones (fst s)
  /\ lifecycle.hooks (lifecycle (fst s')) = lifecycle.hooks (lifecycle (fst s)).
Proof.
  unfold Stop, withTimeout. destruct race as [|ce turns].
  - destruct (lifecycleStop ctx s) as [out s''] eqn:E. cbn [snd].
    exact (lifecycleStop_config _ _ _ _ E).
  - pose proof (FxFacts.lifecycleStopWithin_fields dig turns ctx s) as H.
    destruct (lifecycleStopWithin turns ctx s) as [p s'']. exact H.
Qed.

(** X21.  Nothing that happens to an application after [New] touches what
    construction fixed: the construction error, the two timeouts, the
    observers and the lists of constructors and invocations stay as they
    are through [Start], [Stop], [Done], broadcasts, receives and late
    [Append]s. *)
Theorem step_keeps_construction_results s s' :
  step s s' ->
  err (fst s') = err (fst s)
  /\ startTimeout (fst s') = startTimeout (fst s)
  /\ stopTimeout (fst s') = stopTimeout (fst s)
  /\ errorHooks (fst s') = errorHooks (fst s)
  /\ provides (fst s') = provides (fst s)
  /\ invokes (fst s') = invokes (fst s).
Proof.
  intros [race ctx s0 r s0' H | race ctx s0 r s0' H | app st
         | signal app st | i app st sig app' H | app st hook cn].
  - pose proof (Start_config race ctx s0) as C. rewrite H in C. cbn [snd] in C. tauto.
  - pose proof (Stop_config race ctx s0) as C. rewrite H in C. cbn [snd] in C. tauto.
  - simpl. auto 10.
  - unfold broadcastSignal. destruct (broadcastLoop signal (dones app) 0). simpl. auto 10.
  - unfold receive in H. destruct (nth_error (dones app) i) as [[sg|]|]; try discriminate.
    injection H as _ <-. simpl. auto 10.
  - simpl. auto 10.
Qed.

(** X22.  Nothing registered is ever retracted: along every step the hooks
    stay, in order, at the front of the registry, and the number of listener
    channels does not go down. *)
Theorem step_never_retracts s s' :
  step s s' ->
  (exists added,
      lifecycle.hooks (lifecycle (fst s')) = lifecycle.hooks (lifecycle (fst s)) ++ added)
  /\ List.length (dones (fst s)) <= List.length (dones (fst s')).
Proof.
  intros [race ctx s0 r s0' H | race ctx s0 r s0' H | app st
         | signal app st | i app st sig app' H | app st hook cn].
  - pose proof (Start_config race ctx s0) as C. rewrite H in C. cbn [snd] in C.
    destruct C as (_ & _ & _ & _ & _ & _ & -> & ->).
    split; [exists []; now rewrite app_nil_r | lia].
  - pose proof (Stop_config race ctx s0) as C. rewrite H in C. cbn [snd] in C.
    destruct C as (_ & _ & _ & _ & _ & _ & -> & ->).
    split; [exists []; now rewrite app_nil_r | lia].
  - simpl. split; [exists []; now rewrite app_nil_r | rewrite length_app; lia].
  - cbn [fst]. rewrite broadcastSignal_dones, length_map.
    unfold broadcastSignal. destruct (broadcastLoop signal (dones app) 0). simpl.
    split; [exists []; now rewrite app_nil_r | lia].
  - unfold receive in H. destruct (nth_error (dones app) i) as [[sg|]|] eqn:Hi; try discriminate.
    injection H as _ <-. cbn [fst dones lifecycle setDones].
    split; [exists []; now rewrite app_nil_r|].
    assert (i < List.length (dones app)) by (apply nth_error_Some; congruence).
    rewrite length_app, length_firstn. cbn [List.length].
    change (match dones app with [] => [] | _ :: l => skipn i l end)
      with (skipn (S i) (dones app)).
    rewrite length_skipn. lia.
  - simpl. split; [eexists; reflexivity | lia].
Qed.

End WithWorld.

Lemma Error_option_short_circuits_witness :
  New Examples.exDig
      ([provideOption [VFunc "newLogger" false]]
         ++ ErrorOption [None; Some Examples.e1]
         :: [invokeOption [Examples.registerAB]])
      Examples.st0
  = (applyOptions ([provideOption [VFunc "newLogger" false]]
                     ++ ErrorOption [None; Some Examples.e1]
                     :: [invokeOption [Examples.registerAB]])
                  (initialApp Examples.exDig),
     Examples.st0).
Proof.
  refine (proj1 (proj2 (Error_option_short_circuits Examples.exDig
                          [provideOption [VFunc "newLogger" false]]
                          [None; Some Examples.e1]
                          [invokeOption [Examples.registerAB]]
                          Examples.st0 Examples.e1 _))).
  simpl. right. left. reflexivity.
Defined.

Lemma last_StartTimeout_decides_witness :
  startTimeout (fst (New Examples.exDig
                       ([StartTimeout (5 * Second)%Z]
                          ++ StartTimeout (10 * Second)%Z
                          :: [invokeOption [Examples.registerAB]])
                       Examples.st0))
  = (10 * Second)%Z.
Proof.
  exact (proj2 (last_StartTimeout_decides Examples.exDig
                  [invokeOption [Examples.registerAB]] Examples.st0 eq_refl)
               [StartTimeout (5 * Second)%Z] (10 * Second)%Z).
Defined.

Lemma last_StopTimeout_decides_witness :
  stopTimeout (fst (New Examples.exDig [invokeOption [Examples.registerAB]] Examples.st0))
  = (15 * Second)%Z.
Proof.
  exact (proj1 (last_StopTimeout_decides Examples.exDig
                  [invokeOption [Examples.registerAB]] Examples.st0 eq_refl)).
Defined.

(** Three invocations, the second of which fails: the third is not run. *)
Lemma executeInvokes_stops_at_first_failure_witness :
  fst (fst (executeInvokes
              (provideAll (applyOptions
                             [invokeOption [Examples.registerAB; Examples.failingInvoke;
                                            Examples.cyclicInvoke]]
                             (initialApp Examples.exDig)))
              Examples.st0))
  = Some (errorString "invoke failed").
Proof.
  destruct (executeInvokes_stops_at_first_failure Examples.exDig
              (provideAll (applyOptions
                             [invokeOption [Examples.registerAB; Examples.failingInvoke;
                                            Examples.cyclicInvoke]]
                             (initialApp Examples.exDig)))
              Examples.st0
              [Examples.registerAB] Examples.failingInvoke [Examples.cyclicInvoke]
              _ _ _ _ _ eq_refl eq_refl eq_refl) as [H _].
  exact (f_equal (fun r => fst (fst r)) H).
Defined.

(** An [Option] handed to [Provide], after a good constructor. *)
Lemma refused_constructor_fails_construction_witness :
  snd (New Examples.exDig
         [provideOption [VFunc "newLogger" false; VOption "fx.Invoke(main.run)"];
          invokeOption [Examples.registerAB]]
         Examples.st0)
  = Examples.st0.
Proof.
  exact (proj1 (proj2 (refused_constructor_fails_construction Examples.exDig
                         [provideOption [VFunc "newLogger" false;
                                         VOption "fx.Invoke(main.run)"];
                          invokeOption [Examples.registerAB]]
                         Examples.st0 eq_refl))).
Defined.

Lemma observers_get_the_graph_witness :
  VisualizeError
    (Err (fst (New Examples.exDig
                 [errorHookOption [Examples.observer 1];
                  invokeOption [Examples.cyclicInvoke]]
                 Examples.st0)))
  = ("", Some (errorString "unable to visualize error")).
Proof.
  refine (proj1 (proj2 (observers_get_the_graph Examples.exDig
                   [errorHookOption [Examples.observer 1];
                    invokeOption [Examples.cyclicInvoke]]
                   Examples.st0 (errorString "cycle detected")
                   (snd (fst (executeInvokes
                                (provideAll (applyOptions
                                               [errorHookOption [Examples.observer 1];
                                                invokeOption [Examples.cyclicInvoke]]
                                               (initialApp Examples.exDig)))
                                Examples.st0)))
                   (snd (executeInvokes
                           (provideAll (applyOptions
                                          [errorHookOption [Examples.observer 1];
                                           invokeOption [Examples.cyclicInvoke]]
                                          (initialApp Examples.exDig)))
                           Examples.st0))
                   eq_refl eq_refl eq_refl _)) eq_refl).
  simpl. discriminate.
Defined.

Lemma second_broadcast_reports_every_channel_witness :
  broadcastSignal SIGINT (snd (broadcastSignal SIGTERM (fst Examples.appADwaiting)))
  = (Some (errorString "failed to send interrupt signal to 1 out of 1 channels"),
     snd (broadcastSignal SIGTERM (fst Examples.appADwaiting))).
Proof.
  refine (second_broadcast_reports_every_channel Examples.exDig SIGTERM SIGINT
            (fst Examples.appADwaiting) _).
  simpl. discriminate.
Defined.

(** Hooks A and D start under the 10s context; the signal is taken and
    hook A is stopped under the 20s context. *)
Lemma run_stops_under_stop_timeout_witness :
  exists res app3 st3,
    run PhaseFirst PhaseFirst 0 Examples.appAD = (res, (app3, st3))
    /\ calls st3 = [CallStart 0 Examples.ctxA; CallStart 1 Examples.ctxA;
                    CallStop 0 Examples.ctxB]
    /\ res = Finished.
Proof.
  destruct (run_stops_under_stop_timeout Examples.exDig (fst Examples.appAD)
              Examples.st0 0 SIGTERM _ _ eq_refl eq_refl eq_refl eq_refl)
    as (res & app3 & st3 & H1 & H2 & _ & _ & _ & H3).
  exists res, app3, st3. split; [exact H1 | split; [exact H2 | exact H3]].
Defined.


Lemma step_keeps_construction_results_witness :
  err (snd (Done (fst Examples.appFailed))) = Some (errorString "invoke failed").
Proof.
  exact (proj1 (step_keeps_construction_results Examples.exDig _ _
                  (step_Done Examples.exDig (fst Examples.appFailed)
                             (snd Examples.appFailed)))).
Defined.

Lemma step_never_retracts_witness :
  exists added,
    lifecycle.hooks
      (lifecycle (setLifecycle (fst Examples.appAB)
                    (lifecycle.Append (lifecycle (fst Examples.appAB)) Examples.hookC "late")))
    = lifecycle.hooks (lifecycle (fst Examples.appAB)) ++ added.
Proof.
  exact (proj1 (step_never_retracts Examples.exDig _ _
                  (step_Append Examples.exDig (fst Examples.appAB) (snd Examples.appAB)
                               Examples.hookC "late"))).
Defined.

End FxExtras.

(** * Properties of package fxreflect *)

Module FxreflectFacts.

Import Ascii.
Import fxreflect.

(** *** Strings *)

Lemma append_assoc (a b c : string) : ((a ++ b) ++ c = a ++ b ++ c)%string.
Proof. induction a as [|x a IH]; simpl; [reflexivity | now rewrite IH]. Qed.

Lemma hasByte_append c (a b : string) :
  hasByte c (a ++ b) = hasByte c a || hasByte c b.
Proof.
  induction a as [|x a IH]; simpl; [reflexivity|].
  now rewrite IH, Bool.orb_assoc.
Qed.

Lemma prefix_nil (s : string) : String.prefix "" s = true.
Proof. now destruct s. Qed.

Lemma prefix_append_self (sep rest : string) : String.prefix sep (sep ++ rest) = true.
Proof.
  induction sep as [|x sep IH]; simpl; [apply prefix_nil|].
  destruct (ascii_dec x x); [exact IH | contradiction].
Qed.

Lemma drop_append (sep rest : string) : drop (String.length sep) (sep ++ rest) = rest.
Proof. induction sep as [|x sep IH]; simpl; [now destruct rest | exact IH]. Qed.

Lemma prefix_append_long (sep : string) : forall u v : string,
  String.length sep <= String.length u ->
  String.prefix sep (u ++ v) = String.prefix sep u.
Proof.
  induction sep as [|x sep IH]; intros u v Hlen; [now rewrite !prefix_nil|].
  destruct u as [|y u]; simpl in Hlen |- *; [lia|].
  destruct (ascii_dec x y); [apply IH; lia | reflexivity].
Qed.

Lemma length_append (a b : string) :
  String.length (a ++ b) = String.length a + String.length b.
Proof. induction a as [|x a IH]; simpl; [reflexivity | now rewrite IH]. Qed.

Lemma cut_absent (sep : string) : forall s : string,
  Contains s sep = false -> cut sep s = None.
Proof.
  induction s as [|c s IH]; intro H; simpl in H |- *;
    apply Bool.orb_false_iff in H as [Hp Hc].
  - now rewrite Hp.
  - rewrite Hp. now rewrite (IH Hc).
Qed.

Lemma prefix_split (sep : string) : forall s : string,
  String.prefix sep s = true -> s = (sep ++ drop (String.length sep) s)%string.
Proof.
  induction sep as [|x sep IH]; intros s Hp; [reflexivity|].
  destruct s as [|y s]; simpl in Hp; [discriminate|].
  destruct (ascii_dec x y) as [<-|]; [|discriminate].
  simpl. f_equal. now apply IH.
Qed.

Lemma cut_correct (sep : string) : forall (s before after : string),
  cut sep s = Some (before, after) -> s = (before ++ sep ++ after)%string.
Proof.
  induction s as [|c s IH]; intros before after H; cbn [cut] in H.
  - destruct (String.prefix sep "") eqn:Hp; [|discriminate].
    injection H as <- <-. now apply prefix_split.
  - destruct (String.prefix sep (String c s)) eqn:Hp.
    + injection H as <- <-. now apply prefix_split.
    + destruct (cut sep s) as [[b a]|]; [|discriminate].
      injection H as <- <-. simpl. f_equal. now apply IH.
Qed.

Lemma cut_cons (sep : string) c (s : string) :
  cut sep (String c s)
  = if String.prefix sep (String c s)
    then Some (EmptyString, drop (String.length sep) (String c s))
    else match cut sep s with
         | Some (before, after) => Some (String c before, after)
         | None => None
         end.
Proof. reflexivity. Qed.

(** When [/vendor/] first occurs right after [a], the cut is there. *)
Lemma cut_vendor_first (a b : string) :
  Contains (a ++ "/vendor") "/vendor/" = false ->
  cut "/vendor/" (a ++ "/vendor/" ++ b) = Some (a, b).
Proof.
  induction a as [|c a IH]; intro H.
  - now destruct b.
  - cbn [append Contains] in H. apply Bool.orb_false_iff in H as [Hp Hc].
    change (String c a ++ "/vendor/" ++ b)%string
      with (String c (a ++ "/vendor/" ++ b)).
    rewrite cut_cons.
    assert (Hp' : String.prefix "/vendor/" (String c (a ++ "/vendor/" ++ b)) = false).
    { change (String c (a ++ "/vendor/" ++ b))
        with (String c a ++ "/vendor/" ++ b)%string.
      change ("/vendor/" ++ b)%string with ("/vendor" ++ "/" ++ b)%string.
      rewrite <- append_assoc.
      rewrite prefix_append_long; [exact Hp|].
      rewrite length_append. simpl. lia. }
    rewrite Hp'. now rewrite (IH Hc).
Qed.

(** *** Unescaping *)

Lemma scanEscapes_plain : forall s : string,
  hasByte "%" s = false -> hasByte "+" s = false -> scanEscapes s = Some (0, false).
Proof.
  induction s as [|c s IH]; intros Hp Hq; [reflexivity|].
  cbn [hasByte] in Hp, Hq.
  apply Bool.orb_false_iff in Hp as [Hp1 Hp2].
  apply Bool.orb_false_iff in Hq as [Hq1 Hq2].
  apply Ascii.eqb_neq in Hp1. apply Ascii.eqb_neq in Hq1.
  cbn [scanEscapes].
  destruct (Ascii.eqb_spec c "%") as [->|_]; [contradiction|].
  destruct (Ascii.eqb_spec c "+") as [->|_]; [contradiction|].
  now apply IH.
Qed.

Lemma QueryUnescape_plain (s : string) :
  hasByte "%" s = false -> hasByte "+" s = false -> QueryUnescape s = Some s.
Proof.
  intros Hp Hq. unfold QueryUnescape. now rewrite scanEscapes_plain.
Qed.

(** *** sanitize *)

(** X24.  A name without escapes, plus signs and [/vendor/] is kept as it
    is. *)
Theorem sanitize_keeps_plain_name (function : string) :
  hasByte "%" function = false ->
  hasByte "+" function = false ->
  Contains function "/vendor/" = false ->
  sanitize function = function.
Proof.
  intros Hp Hq Hv. unfold sanitize, replaceVendor.
  rewrite (QueryUnescape_plain _ Hp Hq). now rewrite (cut_absent _ _ Hv).
Qed.

(** X25.  A vendored name is shortened to start at its first [vendor/]:
    everything before the first [/vendor/] is dropped, and what follows is
    kept, further [/vendor/] included. *)
Theorem sanitize_shortens_vendored_name (a b : string) :
  hasByte "%" a = false -> hasByte "+" a = false -> hasByte newline a = false ->
  hasByte "%" b = false -> hasByte "+" b = false ->
  Contains (a ++ "/vendor") "/vendor/" = false ->
  sanitize (a ++ "/vendor/" ++ b) = ("vendor/" ++ b)%string.
Proof.
  intros Hpa Hqa Hna Hpb Hqb Hfirst. unfold sanitize, replaceVendor.
  rewrite QueryUnescape_plain.
  - rewrite (cut_vendor_first _ _ Hfirst). now rewrite Hna.
  - rewrite !hasByte_append, Hpa, Hpb. reflexivity.
  - rewrite !hasByte_append, Hqa, Hqb. reflexivity.
Qed.

(** Whatever the name, a result of [replaceVendor] that differs from its
    argument starts with [vendor/] and ends with what followed a [/vendor/]
    of the argument. *)
Lemma replaceVendor_cases (function : string) :
  replaceVendor function = function
  \/ exists before after : string,
       function = (before ++ "/vendor/" ++ after)%string
       /\ replaceVendor function = ("vendor/" ++ after)%string.
Proof.
  unfold replaceVendor. destruct (cut "/vendor/" function) as [[before after]|] eqn:E; [|now left].
  destruct (hasByte newline before); [now left|].
  right. exists before, after. split; [now apply cut_correct | reflexivity].
Qed.

(** *** Caller *)

Lemma callerLoop_find (rest : list Frame) : forall f,
  callerLoop f (match rest with [] => false | _ => true end) rest
  = match find (fun g => negb (shouldIgnoreFrame g)) (removelast (f :: rest)) with
    | Some g => sanitize (Function g)
    | None => "n/a"
    end.
Proof.
  induction rest as [|f' rest IH]; intro f.
  - reflexivity.
  - cbn [callerLoop]. change (removelast (f :: f' :: rest)) with (f :: removelast (f' :: rest)).
    cbn [find]. destruct (shouldIgnoreFrame f); cbn [negb]; [apply IH | reflexivity].
Qed.

(** X23.  [Caller] answers with the sanitized function of the first frame that
    is not to be ignored, looking at every frame but the last one, which the
    loop never examines; it answers [n/a] when there is no such frame, and
    so whenever a single frame is left. *)
Theorem Caller_reports_first_frame_outside_fx (n : nat) (frames : list Frame) :
  n <> 0 ->
  Caller n frames
  = match find (fun f => negb (shouldIgnoreFrame f)) (removelast frames) with
    | Some f => sanitize (Function f)
    | None => "n/a"
    end.
Proof.
  intro Hn. unfold Caller. destruct n; [contradiction|]. cbn [Nat.eqb].
  destruct frames as [|f rest]; [reflexivity|].
  cbn [Next]. apply callerLoop_find.
Qed.

Lemma sanitize_keeps_plain_name_witness :
  sanitize "main.NewServer" = "main.NewServer".
Proof.
  exact (sanitize_keeps_plain_name "main.NewServer" eq_refl eq_refl eq_refl).
Defined.

Lemma sanitize_shortens_vendored_name_witness :
  sanitize "github.com/acme/app/vendor/go.uber.org/zap.New" = "vendor/go.uber.org/zap.New".
Proof.
  exact (sanitize_shortens_vendored_name "github.com/acme/app" "go.uber.org/zap.New"
           eq_refl eq_refl eq_refl eq_refl eq_refl eq_refl).
Defined.

(** A hook appended from [main.NewServer] through fx's wrapper: the
    wrapper's frame is ignored and [runtime.main], the last frame, is never
    looked at. *)
Lemma Caller_reports_first_frame_outside_fx_witness :
  Caller 3 [mkFrame "go.uber.org/fx.lifecycleWrapper.Append"
                    "/go/src/go.uber.org/fx/lifecycle.go";
            mkFrame "main.NewServer" "/app/main.go";
            mkFrame "runtime.main" "/usr/local/go/src/runtime/proc.go"]
  = "main.NewServer".
Proof.
  refine (Caller_reports_first_frame_outside_fx 3
            [mkFrame "go.uber.org/fx.lifecycleWrapper.Append"
                     "/go/src/go.uber.org/fx/lifecycle.go";
             mkFrame "main.NewServer" "/app/main.go";
             mkFrame "runtime.main" "/usr/local/go/src/runtime/proc.go"] _).
  discriminate.
Defined.

End FxreflectFacts.
